(** * Jupiter DCA order viewer: the view-model pipeline

    A shallow embedding of the query pipeline of the [JupiterDCAViewer]
    component: the tab (time-window) partition, the order filter, the
    comparator handed to [Array.prototype.sort], and the hourly
    aggregation that feeds the chart.

    Conventions of the embedding.
    - A JavaScript string is a [string]; [<] on strings is the
      comparison by code units ([String.ltb]).
    - A [Date] is its time value in milliseconds since the epoch, a [Z];
      an invalid date (time value NaN) is [None].  Every relational
      operator on a NaN operand is false.
    - A number is a finite double, held as the rational it is equal to;
      an addition or a product of numbers is the exact result rounded to
      the nearest double ([roundToDouble]).  Comparisons are exact.
    - Local time is UTC shifted by the offset of the time zone
      ([TimeZone]), which may change from one instant to another.
    - Built-ins whose result depends on the locale or on the text
      handed to them ([toLowerCase], [localeCompare], the Date parser,
      the time formatter) are the members of the class [Host].
    - The fields of an order that the simpler variants of the component
      do not have are there and unused. *)

From Stdlib Require Import List ZArith QArith String Ascii Bool Lia Lqa.
From Stdlib Require Import Permutation Sorted OrderedTypeEx.
From Stdlib Require Import Qround Qabs DecimalString DecimalZ.
Import ListNotations.

Close Scope Q_scope.
Local Open Scope string_scope.
Local Open Scope Z_scope.
Local Open Scope list_scope.

(** ** Host built-ins *)

Class Host : Type := {
  (** [String.prototype.toLowerCase] *)
  toLowerCase : string -> string;
  (** [String.prototype.localeCompare]: negative, zero or positive *)
  localeCompare : string -> string -> Z;
  (** time value of [new Date(s)]; [None] stands for an invalid date *)
  Date_parse : string -> option Z;
  (** [toLocaleTimeString([], { hour: '2-digit', minute: '2-digit' })] *)
  toLocaleTimeString : Z -> string;
  (** the collation is a consistent comparator *)
  localeCompare_asym : forall a b, localeCompare a b < 0 -> 0 < localeCompare b a;
  localeCompare_trans : forall a b c,
      localeCompare a b < 0 -> localeCompare b c < 0 -> localeCompare a c < 0
}.

(** ** Strings *)

(** [String.prototype.includes]: [sub] occurs somewhere in [s]. *)
Fixpoint includes (s sub : string) : bool :=
  if String.prefix sub s then true
  else match s with
       | EmptyString => false
       | String _ s' => includes s' sub
       end.

(** What "is a substring of" means, independently of the search loop. *)
Definition Contains (s sub : string) : Prop :=
  exists pre post, s = (pre ++ sub ++ post)%string.

(** Case-insensitive containment, as the component tests it:
    both sides are lowered first. *)
Definition ContainsCI `{Host} (s sub : string) : Prop :=
  Contains (toLowerCase s) (toLowerCase sub).

(** ** Data model *)

(** [type DCAOrder] *)
Record DCAOrder : Type := mkOrder {
  id : string;
  user : string;
  inputMint : string;
  outputMint : string;
  amount : Q;
  frequency : string;
  createdAt : string;
  executeAt : string
}.

(** The [filters] state of the component. *)
Record Filters : Type := mkFilters {
  f_search : string;
  f_inputMint : string;
  f_outputMint : string;
  f_user : string
}.

(** The initial [filters] state: every field is the empty string. *)
Definition noFilters : Filters := mkFilters "" "" "" "".

(** [activeTab]: 'Next Hour' | 'Next Day' | 'All' *)
Inductive Tab : Type := NextHour | NextDay | AllTab.

(** ['ascend' | 'descend']; antd's [SortOrder] adds [null],
    which is [None] below. *)
Inductive Direction : Type := ascend | descend.

(** [type SortConfig] *)
Record SortConfig : Type := mkSort {
  key : string;
  direction : option Direction
}.

(** ** Filter engine *)

Section FilterEngine.
Context `{Host}.

(** The predicate of the second [filter] call of [filteredOrders] in the
    tabbed component: the mint selectors are exact matches and the
    empty selector matches everything. *)
Definition matchesFilters (filters : Filters) (order : DCAOrder) : bool :=
  includes (toLowerCase (user order)) (toLowerCase (f_user filters)) &&
  ((f_inputMint filters =? "")%string || (inputMint order =? f_inputMint filters)%string) &&
  ((f_outputMint filters =? "")%string || (outputMint order =? f_outputMint filters)%string) &&
  (includes (toLowerCase (user order)) (toLowerCase (f_search filters)) ||
   includes (toLowerCase (inputMint order)) (toLowerCase (f_search filters)) ||
   includes (toLowerCase (outputMint order)) (toLowerCase (f_search filters))).

Definition filterEngine (filters : Filters) (orders : list DCAOrder)
  : list DCAOrder :=
  filter (matchesFilters filters) orders.

(** The predicate of [filteredOrders] in
    [src/components/JupiterDCAViewer.tsx]: the mint filters are text
    inputs and are tested by case-insensitive containment. *)
Definition matchesFiltersText (filters : Filters) (order : DCAOrder) : bool :=
  includes (toLowerCase (user order)) (toLowerCase (f_user filters)) &&
  includes (toLowerCase (inputMint order)) (toLowerCase (f_inputMint filters)) &&
  includes (toLowerCase (outputMint order)) (toLowerCase (f_outputMint filters)) &&
  (includes (toLowerCase (user order)) (toLowerCase (f_search filters)) ||
   includes (toLowerCase (inputMint order)) (toLowerCase (f_search filters)) ||
   includes (toLowerCase (outputMint order)) (toLowerCase (f_search filters))).

Definition filterEngineText (filters : Filters) (orders : list DCAOrder)
  : list DCAOrder :=
  filter (matchesFiltersText filters) orders.

End FilterEngine.

(** The four conditions of the filter, in the words of the design:
    (a) the user contains the user filter, (b) and (c) the mint equals
    the selector or the selector is empty, (d) the search text occurs in
    the user or in one of the mints. *)
Definition keepSpec `{Host} (filters : Filters) (order : DCAOrder) : Prop :=
  ContainsCI (user order) (f_user filters) /\
  (inputMint order = f_inputMint filters \/ f_inputMint filters = "") /\
  (outputMint order = f_outputMint filters \/ f_outputMint filters = "") /\
  (ContainsCI (user order) (f_search filters) \/
   ContainsCI (inputMint order) (f_search filters) \/
   ContainsCI (outputMint order) (f_search filters)).

(** The same with (b) and (c) read as case-insensitive containment. *)
Definition keepSpecText `{Host} (filters : Filters) (order : DCAOrder) : Prop :=
  ContainsCI (user order) (f_user filters) /\
  ContainsCI (inputMint order) (f_inputMint filters) /\
  ContainsCI (outputMint order) (f_outputMint filters) /\
  (ContainsCI (user order) (f_search filters) \/
   ContainsCI (inputMint order) (f_search filters) \/
   ContainsCI (outputMint order) (f_search filters)).

(** ** Time-window partition *)

(** Relational operators on time values; a NaN operand makes them false. *)
Definition date_ltb (x y : option Z) : bool :=
  match x, y with
  | Some a, Some b => a <? b
  | _, _ => false
  end.

Definition date_leb (x y : option Z) : bool :=
  match x, y with
  | Some a, Some b => a <=? b
  | _, _ => false
  end.

Definition date_gtb (x y : option Z) : bool := date_ltb y x.
Definition date_geb (x y : option Z) : bool := date_leb y x.

Section TimeWindow.
Context `{Host}.

(** The callback of the first [filter] call of [filteredOrders];
    [now] is the time value of [new Date()]. *)
Definition inActiveTab (now : Z) (activeTab : Tab) (order : DCAOrder) : bool :=
  let executeTime := Date_parse (executeAt order) in
  match activeTab with
  | NextHour =>
      date_gtb executeTime (Some now) &&
      date_leb executeTime (Some (now + 60 * 60 * 1000))
  | NextDay =>
      date_gtb executeTime (Some now) &&
      date_leb executeTime (Some (now + 24 * 60 * 60 * 1000))
  | AllTab => true
  end.

Definition relevantOrders (now : Z) (activeTab : Tab) (orders : list DCAOrder)
  : list DCAOrder :=
  filter (inActiveTab now activeTab) orders.

End TimeWindow.

(** An order is due within [width] milliseconds after [now]: its
    execution instant [t] is a valid date with [now < t <= now + width]. *)
Definition dueWithin `{Host} (now width : Z) (order : DCAOrder) : Prop :=
  exists t, Date_parse (executeAt order) = Some t /\ now < t <= now + width.

(** ** [Array.prototype.sort]

    The language requires the sort to be stable and leaves the rest to the
    engine.  The engine modelled here is V8's, by its insertion step: each
    element in turn moves left past the earlier elements [e] for which
    [comparefn x e] is negative, and past no other; V8 never asks the
    comparator anything but whether [comparefn later earlier < 0].  The
    sorted prefix is kept back to front. *)

Section ArraySort.
Context {A : Type} (comparefn : A -> A -> Z).

Fixpoint insertSorted (x : A) (sortedRev : list A) : list A :=
  match sortedRev with
  | [] => [x]
  | y :: rest =>
      if comparefn x y <? 0 then y :: insertSorted x rest
      else x :: y :: rest
  end.

Definition Array_sort (l : list A) : list A :=
  rev (fold_left (fun sortedRev x => insertSorted x sortedRev) l []).

End ArraySort.

(** Another engine.  Its insertion step asks the comparator about the
    pair the other way round: an element moves left past the earlier
    elements [e] for which [comparefn e x] is positive.  On a comparator
    whose answers for [(x, e)] and [(e, x)] have opposite signs this is the
    same sort; on any other comparator the language leaves the order to the
    engine. *)

Section ArraySortAlt.
Context {A : Type} (comparefn : A -> A -> Z).

Fixpoint insertSortedAlt (x : A) (sortedRev : list A) : list A :=
  match sortedRev with
  | [] => [x]
  | y :: rest =>
      if 0 <? comparefn y x then y :: insertSortedAlt x rest
      else x :: y :: rest
  end.

Definition Array_sort_alt (l : list A) : list A :=
  rev (fold_left (fun sortedRev x => insertSortedAlt x sortedRev) l []).

End ArraySortAlt.

(** ** Sort engine *)

(** The values a property read [order[key]] can give. *)
Inductive JSValue : Type :=
| JSString (s : string)
| JSNumber (q : Q)
| JSUndefined.

(** [order[key]].  A key that names no field of the record reads
    [undefined].  (A key that names a member inherited from
    [Object.prototype] reads the same value on both sides of a
    comparison, which [<] and [>] answer as they do for [undefined]:
    false.) *)
Definition getProp (order : DCAOrder) (k : string) : JSValue :=
  if (k =? "id")%string then JSString (id order)
  else if (k =? "user")%string then JSString (user order)
  else if (k =? "inputMint")%string then JSString (inputMint order)
  else if (k =? "outputMint")%string then JSString (outputMint order)
  else if (k =? "amount")%string then JSNumber (amount order)
  else if (k =? "frequency")%string then JSString (frequency order)
  else if (k =? "createdAt")%string then JSString (createdAt order)
  else if (k =? "executeAt")%string then JSString (executeAt order)
  else JSUndefined.

Definition Qltb (x y : Q) : bool := negb (Qle_bool y x).

(** [x < y] on two reads of the same key: strings by code units,
    numbers numerically, [undefined] never. *)
Definition js_lt (x y : JSValue) : bool :=
  match x, y with
  | JSString a, JSString b => String.ltb a b
  | JSNumber a, JSNumber b => Qltb a b
  | _, _ => false
  end.

Definition js_gt (x y : JSValue) : bool := js_lt y x.

(** The derived key: the template [`${outputMint}-${inputMint}`]. *)
Definition tokenPair (order : DCAOrder) : string :=
  (outputMint order ++ "-" ++ inputMint order)%string.

Section SortEngine.
Context `{Host}.

(** The comparator of [filteredOrders] in the component with the
    token-pair column. *)
Definition compareOrders (sortConfig : SortConfig) (a b : DCAOrder) : Z :=
  if (key sortConfig =? "tokenPair")%string then
    let pairA := tokenPair a in
    let pairB := tokenPair b in
    match direction sortConfig with
    | Some ascend => localeCompare pairA pairB
    | _ => localeCompare pairB pairA
    end
  else
    match direction sortConfig with
    | Some ascend =>
        if js_lt (getProp a (key sortConfig)) (getProp b (key sortConfig))
        then -1 else 1
    | Some descend =>
        if js_gt (getProp a (key sortConfig)) (getProp b (key sortConfig))
        then -1 else 1
    | None => 0
    end.

Definition sortEngine (sortConfig : SortConfig) (orders : list DCAOrder)
  : list DCAOrder :=
  Array_sort (compareOrders sortConfig) orders.

(** The same code run by the other engine. *)
Definition sortEngineAlt (sortConfig : SortConfig) (orders : list DCAOrder)
  : list DCAOrder :=
  Array_sort_alt (compareOrders sortConfig) orders.

(** [filteredOrders]: partition by tab, filter, sort. *)
Definition filteredOrders (now : Z) (activeTab : Tab) (filters : Filters)
           (sortConfig : SortConfig) (orders : list DCAOrder) : list DCAOrder :=
  sortEngine sortConfig (filterEngine filters (relevantOrders now activeTab orders)).

End SortEngine.

(** The comparator of the earlier tabbed component, whose sort keys are
    the fields of the record only and which tests the direction first. *)
Definition compareOrdersPlain (sortConfig : SortConfig) (a b : DCAOrder) : Z :=
  match direction sortConfig with
  | None => 0
  | Some d =>
      if js_lt (getProp a (key sortConfig)) (getProp b (key sortConfig)) then
        match d with ascend => -1 | descend => 1 end
      else if js_gt (getProp a (key sortConfig)) (getProp b (key sortConfig)) then
        match d with ascend => 1 | descend => -1 end
      else 0
  end.

Definition sortEnginePlain (sortConfig : SortConfig) (orders : list DCAOrder)
  : list DCAOrder :=
  Array_sort (compareOrdersPlain sortConfig) orders.

(** The keys the table can sort by: the fields of the record and the
    derived token pair. *)
Definition knownKey (k : string) : bool :=
  existsb (String.eqb k)
          ["id"; "user"; "inputMint"; "outputMint"; "amount"; "frequency";
           "createdAt"; "executeAt"; "tokenPair"].

(** Two orders do not tie under key [k]: ascending, the comparator puts
    one of them strictly before the other. *)
Definition strictlyOrdered `{Host} (k : string) (a b : DCAOrder) : Prop :=
  compareOrders (mkSort k (Some ascend)) a b < 0 \/
  compareOrders (mkSort k (Some ascend)) b a < 0.

(** No two positions of the list tie under key [k]. *)
Definition noTies `{Host} (k : string) (orders : list DCAOrder) : Prop :=
  ForallOrdPairs (strictlyOrdered k) orders.

(** ** Numbers

    Rounding to the nearest double, ties to the even significand, for
    magnitudes below the overflow threshold. *)

(** [2 ^ e], for [e] of either sign. *)
Definition pow2 (e : Z) : Q :=
  if 0 <=? e then inject_Z (2 ^ e) else (1 # Z.to_pos (2 ^ (- e)))%Q.

(** The nearest integer, a tie going to the even one. *)
Definition roundHalfEven (q : Q) : Z :=
  let f := Qfloor q in
  match (q - inject_Z f ?= 1 # 2)%Q with
  | Lt => f
  | Gt => f + 1
  | Eq => if Z.even f then f else f + 1
  end.

(** For [0 < q]: the [e] with [2 ^ e <= q < 2 ^ (e + 1)]. *)
Definition binade (q : Q) : Z :=
  let e := Z.log2 (Qnum q) - Z.log2 (Zpos (Qden q)) in
  if Qle_bool (pow2 e) q then e else e - 1.

(** The double nearest to [q]: 53 significant bits, exponent at least
    -1022. *)
Definition roundToDouble (q : Q) : Q :=
  if Qeq_bool q 0 then 0%Q
  else
    let a := Qabs q in
    let k := Z.max (binade a) (-1022) - 52 in
    let r := Qred (inject_Z (roundHalfEven (a / pow2 k)) * pow2 k) in
    if Qle_bool 0 q then r else (- r)%Q.

(** [x + y] and [x * y] on numbers. *)
Definition number_add (x y : Q) : Q := roundToDouble (x + y).
Definition number_mul (x y : Q) : Q := roundToDouble (x * y).

(** ** Local time *)

Class TimeZone : Type := {
  (** the offset of local time from UTC, in milliseconds, in force at the
      instant [t] *)
  LocalTZA_utc : Z -> Z;
  (** the offset with which the local time value [tl] is read back as an
      instant; a local time that a switch of the offset skips or repeats
      is read with the offset before the switch *)
  LocalTZA_local : Z -> Z
}.

(** [date.setHours(date.getHours() + n)] on the time value [t]: the local
    time value of [t] moves by [n] hours, and the result is read back as
    an instant. *)
Definition addHours {zone : TimeZone} (t n : Z) : Z :=
  let local := t + LocalTZA_utc t + n * (60 * 60 * 1000) in
  local - LocalTZA_local local.

(** [date.setMinutes(date.getMinutes() + n)] on the time value [t]. *)
Definition addMinutes {zone : TimeZone} (t n : Z) : Z :=
  let local := t + LocalTZA_utc t + n * (60 * 1000) in
  local - LocalTZA_local local.

(** The offset is the same, [c], at every instant from [lo] to [hi] and
    for every local time value of those instants. *)
Definition SteadyOffset {zone : TimeZone} (lo hi : Z) : Prop :=
  exists c,
    (forall t, lo <= t <= hi -> LocalTZA_utc t = c) /\
    (forall tl, lo + c <= tl <= hi + c -> LocalTZA_local tl = c).

(** ** Aggregation engine *)

Definition past24Hours (now : Z) : Z := now - 24 * 60 * 60 * 1000.

Definition Qsum (l : list Q) : Q := fold_right Qplus 0%Q l.

Section Aggregation.
Context `{Host} {zone : TimeZone}.

(** [Array.from({ length: 24 }, (_, i) => ...)] *)
Definition labels (now : Z) : list string :=
  map (fun i => toLocaleTimeString (addHours (past24Hours now) (Z.of_nat i)))
      (seq 0 24).

(** The time values of [hourStart] and [hourEnd] for the bucket at
    [index]. *)
Definition hourStart (now : Z) (index : nat) : Z :=
  addHours (past24Hours now) (Z.of_nat index).

Definition hourEnd (now : Z) (index : nat) : Z :=
  addHours (hourStart now index) 1.

(** The callback of [orders.filter] inside [data]. *)
Definition inHour (now : Z) (index : nat) (order : DCAOrder) : bool :=
  let executeAt := Date_parse (executeAt order) in
  date_geb executeAt (Some (hourStart now index)) &&
  date_ltb executeAt (Some (hourEnd now index)) &&
  (inputMint order =? "USDC")%string.

(** [orders.filter(...).reduce((sum, order) => sum + order.amount, 0)] *)
Definition hourValue (now : Z) (index : nat) (orders : list DCAOrder) : Q :=
  fold_left (fun sum order => number_add sum (amount order))
            (filter (inHour now index) orders) 0%Q.

(** [labels.map((_, index) => ...)] *)
Definition data (now : Z) (orders : list DCAOrder) : list Q :=
  map (fun index => hourValue now index orders)
      (seq 0 (List.length (labels now))).

(** The [labels] and the [data] of the one dataset of the result. *)
Definition fetchAggregateUSDCValue (now : Z) (orders : list DCAOrder)
  : list string * list Q :=
  (labels now, data now orders).

(** The orders the chart is about: input mint USDC, executed within
    the 24 hours that end at [now]. *)
Definition inTrailingDay (now : Z) (order : DCAOrder) : bool :=
  (inputMint order =? "USDC")%string &&
  match Date_parse (executeAt order) with
  | Some t => (past24Hours now <=? t) && (t <? now)
  | None => false
  end.

(** The orders of the hour that starts [index] times 3600000 ms after
    the start of the trailing day. *)
Definition inElapsedHour (now : Z) (index : nat) (order : DCAOrder) : bool :=
  (inputMint order =? "USDC")%string &&
  match Date_parse (executeAt order) with
  | Some t => (past24Hours now + Z.of_nat index * 3600000 <=? t) &&
              (t <? past24Hours now + (Z.of_nat index + 1) * 3600000)
  | None => false
  end.

(** The orders of the first [n] such hours. *)
Definition inFirstHours (now : Z) (n : nat) (order : DCAOrder) : bool :=
  (inputMint order =? "USDC")%string &&
  match Date_parse (executeAt order) with
  | Some t => (past24Hours now <=? t) &&
              (t <? past24Hours now + Z.of_nat n * 3600000)
  | None => false
  end.

End Aggregation.

(** An order falls in bucket [index]: its input mint is USDC and its
    execution instant lies in the half-open interval from the bucket's
    [hourStart] to its [hourEnd]. *)
Definition inBucket `{Host} {zone : TimeZone}
           (now : Z) (index : nat) (order : DCAOrder) : Prop :=
  inputMint order = "USDC" /\
  exists t, Date_parse (executeAt order) = Some t /\
            hourStart now index <= t < hourEnd now index.

(** ** Subsequences *)

(** [Subseq s l]: [s] is [l] with some positions dropped. *)
Inductive Subseq {A : Type} : list A -> list A -> Prop :=
| Subseq_nil : Subseq [] []
| Subseq_keep : forall x s l, Subseq s l -> Subseq (x :: s) (x :: l)
| Subseq_drop : forall x s l, Subseq s l -> Subseq s (x :: l).

(** Reads of one key give values of one kind. *)
Definition sameKind (x y : JSValue) : Prop :=
  match x, y with
  | JSString _, JSString _ => True
  | JSNumber _, JSNumber _ => True
  | JSUndefined, JSUndefined => True
  | _, _ => False
  end.

(** ** The component without tabs

    [src/components/JupiterDCAViewer.tsx]: a text filter per field, a
    sort that is always on, and a chart of the first rows. *)

(** ['asc' | 'desc'] *)
Inductive AscDesc : Type := asc | desc.

(** ['asc'] reads ['ascend'] and ['desc'] reads ['descend']. *)
Definition directionOf (d : AscDesc) : Direction :=
  match d with asc => ascend | desc => descend end.

(** The [sortConfig] state of that component. *)
Record SortState : Type := mkSortState {
  s_key : string;
  s_direction : AscDesc
}.

(** [order[key]] there: its orders have no [executeAt]. *)
Definition getPropSimple (order : DCAOrder) (k : string) : JSValue :=
  if (k =? "executeAt")%string then JSUndefined else getProp order k.

(** The comparator of its [filteredOrders]. *)
Definition compareOrdersSimple (sortConfig : SortState) (a b : DCAOrder) : Z :=
  if js_lt (getPropSimple a (s_key sortConfig))
           (getPropSimple b (s_key sortConfig)) then
    match s_direction sortConfig with asc => -1 | desc => 1 end
  else if js_gt (getPropSimple a (s_key sortConfig))
                (getPropSimple b (s_key sortConfig)) then
    match s_direction sortConfig with asc => 1 | desc => -1 end
  else 0.

(** Its [filteredOrders]: filter, then sort. *)
Definition filteredOrdersSimple `{Host} (filters : Filters)
           (sortConfig : SortState) (orders : list DCAOrder) : list DCAOrder :=
  Array_sort (compareOrdersSimple sortConfig) (filterEngineText filters orders).

(** [handleSort]: the updater handed to [setSortConfig], applied to the
    previous state. *)
Definition handleSort (k : string) (prevConfig : SortState) : SortState :=
  mkSortState k
    (if (s_key prevConfig =? k)%string &&
        match s_direction prevConfig with asc => true | desc => false end
     then desc else asc).

(** [s.split('T')[0]]: the text before the first ['T']. *)
Fixpoint beforeFirstT (s : string) : string :=
  match s with
  | EmptyString => EmptyString
  | String c s' =>
      if Ascii.eqb c "T" then EmptyString else String c (beforeFirstT s')
  end.

(** [chartData]: the labels and the data of its one dataset, from the
    rows [filteredOrders]. *)
Definition chartLabels (rows : list DCAOrder) : list string :=
  map (fun order => beforeFirstT (createdAt order)) (firstn 50 rows).

Definition chartValues (rows : list DCAOrder) : list Q :=
  map (fun order => amount order) (firstn 50 rows).

(** ** Selector options *)

(** [Array.from(new Set(l))]: the distinct values, each at the place of
    its first occurrence. *)
Definition Set_from (l : list string) : list string :=
  fold_left
    (fun set x => if existsb (String.eqb x) set then set else set ++ [x])
    l [].

(** The comparison of [sort()] called without a comparator, on strings. *)
Definition defaultCompare (x y : string) : Z :=
  if String.ltb x y then -1 else if String.ltb y x then 1 else 0.

(** [Array.from(new Set(orders.map(order => order.inputMint))).sort()] *)
Definition uniqueInputMints (orders : list DCAOrder) : list string :=
  Array_sort defaultCompare (Set_from (map (fun order => inputMint order) orders)).

Definition uniqueOutputMints (orders : list DCAOrder) : list string :=
  Array_sort defaultCompare (Set_from (map (fun order => outputMint order) orders)).

(** ** Table events *)

(** What the table reports of its sorter: the column's [dataIndex] and
    the order, [None] when the sort was cleared. *)
Record Sorter : Type := mkSorter {
  sorterField : string;
  sorterOrder : option Direction
}.

(** The state that [handleTableChange] hands to [setSortConfig] in the
    paginated component. *)
Definition handleTableChange (sorter : Sorter) : SortConfig :=
  match sorterOrder sorter with
  | Some d => mkSort (sorterField sorter) (Some d)
  | None => mkSort "amount" (Some descend)
  end.

(** ** The simulated fetch

    [fetchDCAOrders] of the component with the token-pair column.  The
    results of [Math.random()] are the stream [random], in call order, and
    [toISOString] is the method of that name on a time value.  The minute
    offset and the user number floor the product as the code computes it,
    rounded; [pick] and the amount take the product exactly: at a rounding
    boundary the code can take the next choice or hundredth, within the
    same bounds. *)

(** The text of an integer in a template literal. *)
Definition numberToString (z : Z) : string :=
  NilEmpty.string_of_int (Z.to_int z).

(** [choices[Math.floor(r * choices.length)]]; the index is within
    bounds for a draw [0 <= r < 1], and the last argument stands for the
    read out of bounds, which a draw never causes. *)
Definition pick (choices : list string) (r : Q) : string :=
  nth (Z.to_nat (Qfloor (r * inject_Z (Z.of_nat (List.length choices)))))
      choices "undefined".

(** [parseFloat(x.toFixed(2))]: the nearest multiple of a hundredth, a tie
    going away from zero. *)
Definition toFixed2 (x : Q) : Q :=
  let n := Qfloor (Qabs x * 100 + (1 # 2)) in
  if Qle_bool 0 x then (n # 100)%Q else (- n # 100)%Q.

Section Fetch.
Context {zone : TimeZone}.
Variable random : nat -> Q.
Variable toISOString : Z -> string.

(** The time value of [orderDate] for the element at [index]. *)
Definition orderInstant (now : Z) (index : nat) : Z :=
  let isNextHour := (index mod 3 =? 0)%nat in
  let isNextDay := (index mod 3 =? 1)%nat in
  if isNextHour then addHours now 1
  else if isNextDay then addHours now 24
  else addHours now 48.

(** The minute offset drawn for the element at [index]: the first of its
    six draws. *)
Definition minuteOffset (index : nat) : Z :=
  Qfloor (number_mul (random (6 * index)) 60).

(** The time value of [executeDate] for the element at [index]. *)
Definition executeInstant (now : Z) (index : nat) : Z :=
  addMinutes (orderInstant now index) (minuteOffset index).

(** The callback of [map]: the order at [index]. *)
Definition mockOrder (now : Z) (index : nat) : DCAOrder :=
  mkOrder
    ("order-" ++ numberToString (Z.of_nat index))%string
    ("user-"
     ++ numberToString (Qfloor (number_mul (random (6 * index + 1)) 100)))%string
    (pick ["SOL"; "USDC"; "ETH"] (random (6 * index + 2)))
    (pick ["BTC"; "USDT"; "RAY"] (random (6 * index + 3)))
    (toFixed2 (random (6 * index + 4) * 10000))
    (pick ["daily"; "weekly"; "monthly"] (random (6 * index + 5)))
    (toISOString (orderInstant now index))
    (toISOString (executeInstant now index)).

(** [fetchDCAOrders(filters)], called at the instant [now]; the filters
    are logged and not used. *)
Definition fetchDCAOrders (filters : Filters) (now : Z) : list DCAOrder :=
  map (mockOrder now) (seq 0 100).

End Fetch.

(** ** A reference host

    One concrete engine, to run the pipeline on examples: ASCII case
    folding, collation by code units, the parser of the
    [toISOString] format, and a 24-hour UTC clock face. *)

Definition lowerChar (c : ascii) : ascii :=
  let n := nat_of_ascii c in
  if ((65 <=? n) && (n <=? 90))%nat then ascii_of_nat (n + 32) else c.

Fixpoint asciiToLowerCase (s : string) : string :=
  match s with
  | EmptyString => EmptyString
  | String c s' => String (lowerChar c) (asciiToLowerCase s')
  end.

Definition codeUnitCompare (a b : string) : Z :=
  match String.compare a b with
  | Lt => -1
  | Eq => 0
  | Gt => 1
  end.

Definition digitVal (c : ascii) : option Z :=
  let n := Z.of_nat (nat_of_ascii c) in
  if (48 <=? n) && (n <=? 57) then Some (n - 48) else None.

Fixpoint digitsFrom (s : string) (acc : Z) : option Z :=
  match s with
  | EmptyString => Some acc
  | String c s' =>
      match digitVal c with
      | Some d => digitsFrom s' (10 * acc + d)
      | None => None
      end
  end.

Definition digitField (s : string) (start len : nat) : option Z :=
  let f := substring start len s in
  if (String.length f =? len)%nat then digitsFrom f 0 else None.

(** Days from 1970-01-01 to the given proleptic Gregorian date. *)
Definition daysFromCivil (y m d : Z) : Z :=
  let y' := if m <=? 2 then y - 1 else y in
  let era := y' / 400 in
  let yoe := y' - era * 400 in
  let doy := (153 * (if 2 <? m then m - 3 else m + 9) + 2) / 5 + d - 1 in
  let doe := yoe * 365 + yoe / 4 - yoe / 100 + doy in
  era * 146097 + doe - 719468.

Definition charAt (s : string) (i : nat) (c : ascii) : bool :=
  match String.get i s with
  | Some c' => Ascii.eqb c c'
  | None => false
  end.

(** [YYYY-MM-DDTHH:mm:ss.sssZ]; anything else is an invalid date. *)
Definition Date_parse_iso (s : string) : option Z :=
  if ((String.length s =? 24)%nat && charAt s 4 "-" && charAt s 7 "-" &&
      charAt s 10 "T" && charAt s 13 ":" && charAt s 16 ":" &&
      charAt s 19 "." && charAt s 23 "Z")
  then
    match digitField s 0 4, digitField s 5 2, digitField s 8 2,
          digitField s 11 2, digitField s 14 2, digitField s 17 2,
          digitField s 20 3 with
    | Some y, Some mo, Some d, Some h, Some mi, Some se, Some ms =>
        if (1 <=? mo) && (mo <=? 12) && (1 <=? d) && (d <=? 31) &&
           (h <=? 23) && (mi <=? 59) && (se <=? 59)
        then Some (daysFromCivil y mo d * 86400000
                   + h * 3600000 + mi * 60000 + se * 1000 + ms)
        else None
    | _, _, _, _, _, _, _ => None
    end
  else None.

Definition twoDigits (n : Z) : string :=
  let d1 := Z.to_nat (n / 10 mod 10) in
  let d0 := Z.to_nat (n mod 10) in
  String (ascii_of_nat (48 + d1)) (String (ascii_of_nat (48 + d0)) EmptyString).

Definition formatHourMinute (t : Z) : string :=
  (twoDigits (t / 3600000 mod 24) ++ ":" ++ twoDigits (t / 60000 mod 60))%string.

(** The civil date of a day count from 1970-01-01. *)
Definition civilFromDays (days : Z) : Z * Z * Z :=
  let z := days + 719468 in
  let era := z / 146097 in
  let doe := z - era * 146097 in
  let yoe := (doe - doe / 1460 + doe / 36524 - doe / 146096) / 365 in
  let doy := doe - (365 * yoe + yoe / 4 - yoe / 100) in
  let mp := (5 * doy + 2) / 153 in
  let d := doy - (153 * mp + 2) / 5 + 1 in
  let m := if mp <? 10 then mp + 3 else mp - 9 in
  let y := yoe + era * 400 + (if m <=? 2 then 1 else 0) in
  (y, m, d).

(** The last [width] decimal digits of [n]. *)
Fixpoint padDigits (width : nat) (n : Z) : string :=
  match width with
  | O => EmptyString
  | S w =>
      (padDigits w (n / 10)
       ++ String (ascii_of_nat (48 + Z.to_nat (n mod 10))) EmptyString)%string
  end.

(** [toISOString] for the years 0000 to 9999. *)
Definition Date_toISOString (t : Z) : string :=
  let '(y, m, d) := civilFromDays (t / 86400000) in
  let ms := t mod 86400000 in
  (padDigits 4 y ++ "-" ++ padDigits 2 m ++ "-" ++ padDigits 2 d ++ "T"
   ++ padDigits 2 (ms / 3600000) ++ ":" ++ padDigits 2 (ms / 60000 mod 60)
   ++ ":" ++ padDigits 2 (ms / 1000 mod 60) ++ "." ++ padDigits 3 (ms mod 1000)
   ++ "Z")%string.

(** A zone without offset. *)
Definition utcZone : TimeZone := {|
  LocalTZA_utc := fun _ => 0;
  LocalTZA_local := fun _ => 0
|}.

(** New York in 2024: five hours behind UTC, four from 2024-03-10T07:00Z
    (02:00 local becomes 03:00) to 2024-11-03T06:00Z (02:00 local becomes
    01:00). *)
Definition newYork2024 : TimeZone := {|
  LocalTZA_utc := fun t =>
    if (1710054000000 <=? t) && (t <? 1730613600000)
    then -14400000 else -18000000;
  LocalTZA_local := fun tl =>
    if (1710039600000 <=? tl) && (tl <? 1730599200000)
    then -14400000 else -18000000
|}.

(** The reference host; its collation is consistent because the order of
    strings by code units is a strict order. *)
#[export, refine] Instance referenceHost : Host := {|
  toLowerCase := asciiToLowerCase;
  localeCompare := codeUnitCompare;
  Date_parse := Date_parse_iso;
  toLocaleTimeString := formatHourMinute
|}.
Proof.
  - intros a b. unfold codeUnitCompare. rewrite (String.compare_antisym a b).
    destruct (String.compare b a); simpl; lia.
  - intros a b c. unfold codeUnitCompare.
    destruct (String.compare a b) eqn:Hab; try lia.
    destruct (String.compare b c) eqn:Hbc; try lia.
    intros _ _. apply String_as_OT.cmp_lt in Hab, Hbc.
    pose proof (String_as_OT.lt_trans _ _ _ Hab Hbc) as Hac.
    apply String_as_OT.cmp_lt in Hac. unfold String_as_OT.cmp in Hac.
    rewrite Hac. lia.
Defined.

(** ** The scenario of the design

    [now] is 2024-03-01T12:30:15.250Z; the first order is due in 30
    minutes, the second in two hours. *)

Module Scenario.

Definition now : Z := 1709296215250.

Definition o1 : DCAOrder :=
  mkOrder "order-0" "u1" "SOL" "BTC" 100 "daily"
          "2024-03-01T12:30:15.250Z" "2024-03-01T13:00:15.250Z".

Definition o2 : DCAOrder :=
  mkOrder "order-1" "u2" "USDC" "RAY" 50 "weekly"
          "2024-03-01T12:30:15.250Z" "2024-03-01T14:30:15.250Z".

(** Two orders of the same token pair. *)
Definition o3 : DCAOrder :=
  mkOrder "order-2" "u3" "USDC" "BTC" 100 "daily"
          "2024-03-01T12:30:15.250Z" "2024-03-01T13:10:15.250Z".

Definition o4 : DCAOrder :=
  mkOrder "order-3" "u4" "USDC" "BTC" 50 "weekly"
          "2024-03-01T12:30:15.250Z" "2024-03-01T13:20:15.250Z".

End Scenario.

(** * Properties *)

(** ** The reference host *)

Lemma String_compare_Lt_trans (a b c : string) :
  String.compare a b = Lt -> String.compare b c = Lt -> String.compare a c = Lt.
Proof.
  intros Hab Hbc.
  apply String_as_OT.cmp_lt. apply String_as_OT.cmp_lt in Hab, Hbc.
  exact (String_as_OT.lt_trans _ _ _ Hab Hbc).
Qed.

Example Date_parse_iso_epoch :
  Date_parse_iso "1970-01-01T00:00:00.000Z" = Some 0.
Proof. reflexivity. Qed.

Example Date_parse_iso_2024 :
  Date_parse_iso "2024-03-01T12:30:15.250Z" = Some 1709296215250.
Proof. vm_compute. reflexivity. Qed.

Example Date_parse_iso_invalid : Date_parse_iso "yesterday" = None.
Proof. reflexivity. Qed.

Example formatHourMinute_ex : formatHourMinute 1709296215250 = "12:30".
Proof. vm_compute. reflexivity. Qed.

(** ** Substring search *)

Lemma prefix_spec (a s : string) :
  String.prefix a s = true <-> exists post, s = (a ++ post)%string.
Proof.
  revert s. induction a as [|c a IH]; intros s.
  - destruct s; simpl; split; intros _; try reflexivity; eexists; reflexivity.
  - destruct s as [|d s]; simpl.
    + split; [discriminate | intros [post E]; discriminate E].
    + destruct (ascii_dec c d) as [->|Hne].
      * rewrite IH. split; intros [post E]; exists post.
        -- now rewrite E.
        -- now inversion E.
      * split; [discriminate | intros [post E]; inversion E; congruence].
Qed.

Lemma includes_spec (s sub : string) :
  includes s sub = true <-> Contains s sub.
Proof.
  unfold Contains. induction s as [|c s IH]; cbn [includes].
  - destruct (String.prefix sub "") eqn:P.
    + apply prefix_spec in P. destruct P as [post E].
      split; [intros _; exists "", post; exact E | reflexivity].
    + split; [discriminate|]. intros [pre [post E]].
      destruct pre; simpl in E.
      * assert (String.prefix sub "" = true) by (apply prefix_spec; eauto).
        congruence.
      * discriminate E.
  - destruct (String.prefix sub (String c s)) eqn:P.
    + apply prefix_spec in P. destruct P as [post E].
      split; [intros _; exists "", post; exact E | reflexivity].
    + rewrite IH. split.
      * intros [pre [post E]]. exists (String c pre), post. simpl. now rewrite E.
      * intros [pre [post E]]. destruct pre as [|d pre]; simpl in E.
        -- assert (String.prefix sub (String c s) = true)
             by (apply prefix_spec; eauto).
           congruence.
        -- inversion E. eauto.
Qed.

Lemma includes_empty (s : string) : includes s "" = true.
Proof. apply includes_spec. exists "", s. reflexivity. Qed.

(** ** Lists: filtering and subsequences *)

Lemma filter_idempotent {A : Type} (f : A -> bool) (l : list A) :
  filter f (filter f l) = filter f l.
Proof.
  induction l as [|x l IH]; simpl; [reflexivity|].
  destruct (f x) eqn:E; simpl; [rewrite E, IH|]; auto.
Qed.

Lemma Subseq_refl {A : Type} (l : list A) : Subseq l l.
Proof. induction l; constructor; assumption. Qed.

Lemma Subseq_filter {A : Type} (f : A -> bool) (l : list A) :
  Subseq (filter f l) l.
Proof.
  induction l as [|x l IH]; simpl; [constructor|].
  destruct (f x); constructor; assumption.
Qed.

Lemma Subseq_trans {A : Type} (l1 l2 l3 : list A) :
  Subseq l1 l2 -> Subseq l2 l3 -> Subseq l1 l3.
Proof.
  intros H12 H23. revert l1 H12.
  induction H23 as [|x s l H23 IH|x s l H23 IH]; intros l1 H12.
  - exact H12.
  - inversion H12; subst; constructor; auto.
  - constructor; auto.
Qed.

Lemma Subseq_In {A : Type} (s l : list A) (x : A) :
  Subseq s l -> In x s -> In x l.
Proof.
  induction 1 as [|y s l _ IH|y s l _ IH]; simpl; intuition.
Qed.

Lemma Subseq_length {A : Type} (s l : list A) :
  Subseq s l -> (List.length s <= List.length l)%nat.
Proof. induction 1; simpl; lia. Qed.

(** ** Filter engine *)

Section FilterFacts.
Context `{Host}.

Lemma matchesFilters_spec (filters : Filters) (order : DCAOrder) :
  matchesFilters filters order = true <-> keepSpec filters order.
Proof.
  unfold matchesFilters, keepSpec, ContainsCI.
  rewrite !andb_true_iff, !orb_true_iff, !String.eqb_eq, !includes_spec.
  intuition.
Qed.

Lemma matchesFiltersText_spec (filters : Filters) (order : DCAOrder) :
  matchesFiltersText filters order = true <-> keepSpecText filters order.
Proof.
  unfold matchesFiltersText, keepSpecText, ContainsCI.
  rewrite !andb_true_iff, !orb_true_iff, !includes_spec.
  intuition.
Qed.

Lemma filterEngine_In (filters : Filters) (orders : list DCAOrder) (o : DCAOrder) :
  In o (filterEngine filters orders) <-> In o orders /\ keepSpec filters o.
Proof.
  unfold filterEngine. rewrite filter_In, matchesFilters_spec. reflexivity.
Qed.

Lemma filterEngineText_In (filters : Filters) (orders : list DCAOrder)
      (o : DCAOrder) :
  In o (filterEngineText filters orders) <->
  In o orders /\ keepSpecText filters o.
Proof.
  unfold filterEngineText. rewrite filter_In, matchesFiltersText_spec.
  reflexivity.
Qed.

End FilterFacts.

(** C1, as stated, on the component of [src/components/JupiterDCAViewer.tsx]:
    with the input-mint filter "USD" the order whose input mint is "USDC"
    is kept, although its input mint is not the filter text and the filter
    text is not empty; so "kept exactly when (a)-(d)" fails there. *)
Lemma filterEngineText_keeps_partial_mint :
  let filters := mkFilters "" "USD" "" "" in
  In Scenario.o2 (filterEngineText filters [Scenario.o1; Scenario.o2]) /\
  ~ keepSpec filters Scenario.o2.
Proof.
  split.
  - vm_compute. auto.
  - intros (_ & [E|E] & _); discriminate E.
Qed.

(** C1, amended.  In the tabbed component an order is kept exactly when
    (a), (b), (c) and (d) all hold, (b) and (c) being exact matches that
    the empty selector waives; in the component of
    [src/components/JupiterDCAViewer.tsx] an order is kept exactly when
    (a) and (d) hold and each mint contains its filter text
    case-insensitively.  In both, an order whose user fails (a) is dropped
    whatever the search text matches. *)
Theorem filter_engine_keeps_iff_all_conditions
        `{Host} (filters : Filters) (orders : list DCAOrder) (o : DCAOrder) :
  (In o (filterEngine filters orders) <-> In o orders /\ keepSpec filters o) /\
  (In o (filterEngineText filters orders) <->
   In o orders /\ keepSpecText filters o) /\
  (~ ContainsCI (user o) (f_user filters) ->
   ~ In o (filterEngine filters orders) /\
   ~ In o (filterEngineText filters orders)).
Proof.
  split; [apply filterEngine_In|]. split; [apply filterEngineText_In|].
  intros Hno. split; intros Hin.
  - apply filterEngine_In in Hin. destruct Hin as [_ [Ha _]]. auto.
  - apply filterEngineText_In in Hin. destruct Hin as [_ [Ha _]]. auto.
Qed.

(** C9.  Filtering an already filtered list with the same criteria
    changes nothing. *)
Theorem filterEngine_idempotent
        `{Host} (filters : Filters) (orders : list DCAOrder) :
  filterEngine filters (filterEngine filters orders) =
  filterEngine filters orders.
Proof. apply filter_idempotent. Qed.

(** C10.  What the tab partition followed by the filter keeps is a
    subsequence of the fetched list: the kept records are records of the
    input, unchanged, each input position is used at most once, and the
    relative order is that of the input.  The same holds for the filter of
    the component without tabs. *)
Theorem partition_then_filter_is_subsequence
        `{Host} (now : Z) (activeTab : Tab) (filters : Filters)
        (orders : list DCAOrder) :
  Subseq (filterEngine filters (relevantOrders now activeTab orders)) orders /\
  Subseq (filterEngineText filters orders) orders.
Proof.
  split.
  - eapply Subseq_trans; apply Subseq_filter.
  - apply Subseq_filter.
Qed.

(** ** Time-window partition *)

Lemma Subseq_filter_impl {A : Type} (f g : A -> bool) (l : list A) :
  (forall x, f x = true -> g x = true) ->
  Subseq (filter f l) (filter g l).
Proof.
  intros Hfg. induction l as [|x l IH]; simpl; [constructor|].
  destruct (f x) eqn:Ef.
  - rewrite (Hfg x Ef). constructor. exact IH.
  - destruct (g x); [constructor|]; exact IH.
Qed.

Section TimeWindowFacts.
Context `{Host}.

Lemma inActiveTab_NextHour (now : Z) (o : DCAOrder) :
  inActiveTab now NextHour o = true <-> dueWithin now 3600000 o.
Proof.
  unfold inActiveTab, dueWithin, date_gtb, date_ltb, date_leb.
  destruct (Date_parse (executeAt o)) as [t|].
  - rewrite andb_true_iff, Z.ltb_lt, Z.leb_le. split.
    + intros [Hlo Hhi]. exists t. split; [reflexivity | lia].
    + intros [t' [E Ht]]. injection E as <-. lia.
  - split; [discriminate | intros [t [E _]]; discriminate E].
Qed.

Lemma inActiveTab_NextDay (now : Z) (o : DCAOrder) :
  inActiveTab now NextDay o = true <-> dueWithin now 86400000 o.
Proof.
  unfold inActiveTab, dueWithin, date_gtb, date_ltb, date_leb.
  destruct (Date_parse (executeAt o)) as [t|].
  - rewrite andb_true_iff, Z.ltb_lt, Z.leb_le. split.
    + intros [Hlo Hhi]. exists t. split; [reflexivity | lia].
    + intros [t' [E Ht]]. injection E as <-. lia.
  - split; [discriminate | intros [t [E _]]; discriminate E].
Qed.

Lemma relevantOrders_AllTab (now : Z) (orders : list DCAOrder) :
  relevantOrders now AllTab orders = orders.
Proof.
  unfold relevantOrders. induction orders as [|o l IH]; simpl; congruence.
Qed.

Lemma dueWithin_mono (now w1 w2 : Z) (o : DCAOrder) :
  w1 <= w2 -> dueWithin now w1 o -> dueWithin now w2 o.
Proof. intros Hw [t [E Ht]]. exists t. split; [exact E | lia]. Qed.

Lemma hour_tab_implies_day_tab (now : Z) (o : DCAOrder) :
  inActiveTab now NextHour o = true -> inActiveTab now NextDay o = true.
Proof.
  rewrite inActiveTab_NextHour, inActiveTab_NextDay.
  apply dueWithin_mono. lia.
Qed.

End TimeWindowFacts.

(** C2.  The "Next Hour" tab holds exactly the orders due within one hour
    after [now], the "Next Day" tab exactly those due within 24 hours, both
    with [now] excluded and the far edge included, and the "All" tab is the
    whole list.  An order due at or before [now] is therefore in neither of
    the first two and is in the third. *)
Theorem relevantOrders_selects_window
        `{Host} (now : Z) (orders : list DCAOrder) :
  (forall o, In o (relevantOrders now NextHour orders) <->
             In o orders /\ dueWithin now (60 * 60 * 1000) o) /\
  (forall o, In o (relevantOrders now NextDay orders) <->
             In o orders /\ dueWithin now (24 * 60 * 60 * 1000) o) /\
  relevantOrders now AllTab orders = orders /\
  (forall o t, In o orders ->
               Date_parse (executeAt o) = Some t -> t <= now ->
               ~ In o (relevantOrders now NextHour orders) /\
               ~ In o (relevantOrders now NextDay orders) /\
               In o (relevantOrders now AllTab orders)).
Proof.
  assert (Hh : forall o, In o (relevantOrders now NextHour orders) <->
                         In o orders /\ dueWithin now 3600000 o).
  { intros o. unfold relevantOrders.
    rewrite filter_In, inActiveTab_NextHour. reflexivity. }
  assert (Hd : forall o, In o (relevantOrders now NextDay orders) <->
                         In o orders /\ dueWithin now 86400000 o).
  { intros o. unfold relevantOrders.
    rewrite filter_In, inActiveTab_NextDay. reflexivity. }
  split; [exact Hh|]. split; [exact Hd|].
  split; [apply relevantOrders_AllTab|].
  intros o t Hin E Hpast. rewrite Hh, Hd, relevantOrders_AllTab.
  split; [|split; [|exact Hin]];
    intros [_ [t' [E' Ht']]]; rewrite E in E'; injection E' as <-; lia.
Qed.

(** C3.  The tabs are nested: what "Next Hour" shows is part of what
    "Next Day" shows, which is part of what "All" shows, and "All" shows
    the whole list.  Each inclusion keeps the order of the rows. *)
Theorem relevantOrders_nested
        `{Host} (now : Z) (orders : list DCAOrder) :
  (incl (relevantOrders now NextHour orders) (relevantOrders now NextDay orders) /\
   Subseq (relevantOrders now NextHour orders)
          (relevantOrders now NextDay orders)) /\
  (incl (relevantOrders now NextDay orders) (relevantOrders now AllTab orders) /\
   Subseq (relevantOrders now NextDay orders)
          (relevantOrders now AllTab orders)) /\
  relevantOrders now AllTab orders = orders.
Proof.
  assert (S1 : Subseq (relevantOrders now NextHour orders)
                      (relevantOrders now NextDay orders)).
  { apply Subseq_filter_impl. intros o. apply hour_tab_implies_day_tab. }
  assert (S2 : Subseq (relevantOrders now NextDay orders)
                      (relevantOrders now AllTab orders)).
  { rewrite relevantOrders_AllTab. apply Subseq_filter. }
  repeat split; try assumption.
  - intros o. apply Subseq_In. exact S1.
  - intros o. apply Subseq_In. exact S2.
  - apply relevantOrders_AllTab.
Qed.

(** ** Aggregation engine *)

Lemma Qsum_app (l1 l2 : list Q) : (Qsum (l1 ++ l2) == Qsum l1 + Qsum l2)%Q.
Proof.
  induction l1 as [|x l1 IH]; simpl; [lra|]. rewrite IH. lra.
Qed.

Lemma Qsum_map_plus {A : Type} (f g : A -> Q) (l : list A) :
  (Qsum (map (fun i => f i + g i) l) == Qsum (map f l) + Qsum (map g l))%Q.
Proof.
  induction l as [|x l IH]; simpl; [lra|]. rewrite IH. lra.
Qed.

Lemma Qsum_map_ext {A : Type} (f g : A -> Q) (l : list A) :
  (forall i, f i == g i)%Q -> (Qsum (map f l) == Qsum (map g l))%Q.
Proof.
  intros E. induction l as [|x l IH]; simpl; [lra|]. rewrite IH, (E x). lra.
Qed.

Lemma Qsum_map_ext_in {A : Type} (f g : A -> Q) (l : list A) :
  (forall i, In i l -> f i == g i)%Q -> (Qsum (map f l) == Qsum (map g l))%Q.
Proof.
  induction l as [|x l IH]; simpl; intros E; [lra|].
  rewrite IH, (E x) by auto. lra.
Qed.

Lemma filter_none {A : Type} (f : A -> bool) (l : list A) :
  (forall x, In x l -> f x = false) -> filter f l = [].
Proof.
  induction l as [|x l IH]; simpl; intros Hf; [reflexivity|].
  rewrite (Hf x) by auto. apply IH. auto.
Qed.

(** *** Rounding keeps the sign *)

Lemma pow2_pos (e : Z) : (0 < pow2 e)%Q.
Proof.
  unfold pow2. destruct (Z.leb_spec 0 e) as [He|He].
  - change 0%Q with (inject_Z 0). rewrite <- Zlt_Qlt.
    apply Z.pow_pos_nonneg; lia.
  - reflexivity.
Qed.

Lemma roundHalfEven_nonneg (q : Q) : (0 <= q)%Q -> 0 <= roundHalfEven q.
Proof.
  intros Hq. unfold roundHalfEven.
  assert (Hf : 0 <= Qfloor q)
    by (change 0 with (Qfloor 0); apply Qfloor_resp_le; exact Hq).
  destruct (q - inject_Z (Qfloor q) ?= 1 # 2)%Q; [|lia|lia].
  destruct (Z.even (Qfloor q)); lia.
Qed.

Lemma roundToDouble_nonneg (q : Q) : (0 <= q)%Q -> (0 <= roundToDouble q)%Q.
Proof.
  intros Hq. unfold roundToDouble.
  destruct (Qeq_bool q 0); [lra|].
  apply Qle_bool_iff in Hq. rewrite Hq. apply Qle_bool_iff in Hq.
  rewrite Qred_correct.
  set (k := Z.max (binade (Qabs q)) (-1022) - 52).
  pose proof (pow2_pos k) as Hp.
  apply Qmult_le_0_compat; [|lra].
  change 0%Q with (inject_Z 0). rewrite <- Zle_Qle.
  apply roundHalfEven_nonneg.
  apply Qle_shift_div_l; [exact Hp|].
  rewrite Qmult_0_l. apply Qabs_nonneg.
Qed.

(** *** A steady offset *)

Section SteadyZone.
Context {zone : TimeZone}.

Lemma addHours_steady (lo hi t n : Z) :
  SteadyOffset lo hi ->
  lo <= t <= hi -> lo <= t + n * 3600000 <= hi ->
  addHours t n = t + n * 3600000.
Proof.
  intros [c [Hu Hl]] Ht Htn. unfold addHours.
  rewrite (Hu t Ht). rewrite Hl by lia. lia.
Qed.

Lemma addMinutes_steady (lo hi t n : Z) :
  SteadyOffset lo hi ->
  lo <= t <= hi -> lo <= t + n * 60000 <= hi ->
  addMinutes t n = t + n * 60000.
Proof.
  intros [c [Hu Hl]] Ht Htn. unfold addMinutes.
  rewrite (Hu t Ht). rewrite Hl by lia. lia.
Qed.

End SteadyZone.

Section AggregationFacts.
Context `{Host} {zone : TimeZone}.

Lemma inHour_spec (now : Z) (index : nat) (o : DCAOrder) :
  inHour now index o = true <-> inBucket now index o.
Proof.
  unfold inHour, inBucket, date_geb, date_leb, date_ltb.
  rewrite !andb_true_iff, String.eqb_eq.
  destruct (Date_parse (executeAt o)) as [t|].
  - rewrite Z.leb_le, Z.ltb_lt. split.
    + intros [[Hlo Hhi] Hm]. split; [exact Hm|]. exists t.
      split; [reflexivity | lia].
    + intros [Hm [t' [E Ht]]]. injection E as <-.
      repeat split; (assumption || lia).
  - split.
    + intros [[Hlo _] _]. discriminate Hlo.
    + intros [_ [t [E _]]]. discriminate E.
Qed.

Lemma hourStart_steady (now : Z) (index : nat) :
  SteadyOffset (past24Hours now) now -> (index < 24)%nat ->
  hourStart now index = past24Hours now + Z.of_nat index * 3600000.
Proof.
  intros Hs Hi. unfold hourStart.
  apply (addHours_steady (past24Hours now) now); [exact Hs | |];
    unfold past24Hours; lia.
Qed.

Lemma hourEnd_steady (now : Z) (index : nat) :
  SteadyOffset (past24Hours now) now -> (index < 24)%nat ->
  hourEnd now index = past24Hours now + (Z.of_nat index + 1) * 3600000.
Proof.
  intros Hs Hi. unfold hourEnd. rewrite (hourStart_steady now index Hs Hi).
  rewrite (addHours_steady (past24Hours now) now); [lia | exact Hs | |];
    unfold past24Hours; lia.
Qed.

(** With a steady offset the buckets are the 24 hours of elapsed time. *)
Lemma inHour_elapsed (now : Z) (index : nat) (o : DCAOrder) :
  SteadyOffset (past24Hours now) now -> (index < 24)%nat ->
  inHour now index o = inElapsedHour now index o.
Proof.
  intros Hs Hi. unfold inHour, inElapsedHour.
  rewrite (hourStart_steady now index Hs Hi), (hourEnd_steady now index Hs Hi).
  unfold date_geb, date_leb, date_ltb.
  destruct (inputMint o =? "USDC")%string;
    destruct (Date_parse (executeAt o)) as [t|]; cbn [andb];
    rewrite ?andb_true_r, ?andb_false_r; reflexivity.
Qed.

Lemma inElapsedHour_unique (now : Z) (i j : nat) (o : DCAOrder) :
  inElapsedHour now i o = true -> inElapsedHour now j o = true -> i = j.
Proof.
  unfold inElapsedHour.
  destruct (inputMint o =? "USDC")%string; cbn [andb]; [|discriminate].
  destruct (Date_parse (executeAt o)) as [t|]; [|discriminate].
  rewrite !andb_true_iff, !Z.leb_le, !Z.ltb_lt. nia.
Qed.

Lemma inFirstHours_S (now : Z) (n : nat) (o : DCAOrder) :
  inFirstHours now (S n) o = inFirstHours now n o || inElapsedHour now n o.
Proof.
  unfold inFirstHours, inElapsedHour.
  destruct (inputMint o =? "USDC")%string; cbn [andb orb];
    destruct (Date_parse (executeAt o)) as [t|]; cbn [andb orb];
    try reflexivity.
  repeat match goal with
         | |- context [?a <=? ?b] => destruct (Z.leb_spec a b)
         | |- context [?a <? ?b] => destruct (Z.ltb_spec a b)
         end; cbn [andb orb]; try reflexivity; exfalso; lia.
Qed.

Lemma inFirstHours_excl (now : Z) (n : nat) (o : DCAOrder) :
  inFirstHours now n o = true -> inElapsedHour now n o = false.
Proof.
  unfold inFirstHours, inElapsedHour.
  destruct (inputMint o =? "USDC")%string; cbn [andb]; [|discriminate].
  destruct (Date_parse (executeAt o)) as [t|]; [|discriminate].
  rewrite andb_true_iff, Z.leb_le, Z.ltb_lt. intros [_ Hlt].
  apply andb_false_iff. left. apply Z.leb_gt. lia.
Qed.

Lemma inFirstHours_0 (now : Z) (o : DCAOrder) :
  inFirstHours now 0 o = false.
Proof.
  unfold inFirstHours.
  destruct (inputMint o =? "USDC")%string; cbn [andb]; [|reflexivity].
  destruct (Date_parse (executeAt o)) as [t|]; [|reflexivity].
  destruct (Z.leb_spec (past24Hours now) t); cbn [andb]; [|reflexivity].
  apply Z.ltb_ge. lia.
Qed.

(** What one order adds to the first [n] hours together. *)
Lemma order_share (now : Z) (o : DCAOrder) (n : nat) :
  (Qsum (map (fun i => if inElapsedHour now i o then amount o else 0)
             (seq 0 n))
   == if inFirstHours now n o then amount o else 0)%Q.
Proof.
  induction n as [|n IH].
  - rewrite inFirstHours_0. simpl. lra.
  - rewrite seq_S, map_app, Qsum_app, IH. simpl.
    rewrite inFirstHours_S.
    destruct (inFirstHours now n o) eqn:E.
    + rewrite (inFirstHours_excl _ _ _ E). simpl. lra.
    + simpl. destruct (inElapsedHour now n o); lra.
Qed.

(** The exact sums of the first [n] hours add up to the exact sum of
    their orders. *)
Lemma hours_total (now : Z) (orders : list DCAOrder) (n : nat) :
  (Qsum (map (fun index =>
                Qsum (map amount (filter (inElapsedHour now index) orders)))
             (seq 0 n))
   == Qsum (map amount (filter (inFirstHours now n) orders)))%Q.
Proof.
  induction orders as [|o orders IH].
  - simpl. induction (seq 0 n) as [|i l IHl]; simpl; [lra|].
    rewrite IHl. lra.
  - rewrite (Qsum_map_ext _
               (fun i => (if inElapsedHour now i o then amount o else 0)
                         + Qsum (map amount
                                     (filter (inElapsedHour now i) orders)))%Q).
    + rewrite (Qsum_map_plus
                 (fun i => if inElapsedHour now i o then amount o else 0%Q)
                 (fun i => Qsum (map amount
                                     (filter (inElapsedHour now i) orders)))).
      rewrite IH, order_share. simpl.
      destruct (inFirstHours now n o); simpl; lra.
    + intros i. simpl. destruct (inElapsedHour now i o); simpl; lra.
Qed.

Lemma inFirstHours_24 (now : Z) (o : DCAOrder) :
  inFirstHours now 24 o = inTrailingDay now o.
Proof.
  unfold inFirstHours, inTrailingDay, past24Hours.
  destruct (inputMint o =? "USDC")%string; simpl; [|reflexivity].
  destruct (Date_parse (executeAt o)) as [t|]; [|reflexivity].
  f_equal. f_equal. lia.
Qed.

(** The 24 hours of elapsed time cover the trailing day. *)
Lemma inTrailingDay_elapsed (now : Z) (o : DCAOrder) :
  inTrailingDay now o = true <->
  exists index, (index < 24)%nat /\ inElapsedHour now index o = true.
Proof.
  unfold inTrailingDay, inElapsedHour.
  destruct (inputMint o =? "USDC")%string; cbn [andb].
  2:{ split; [discriminate | intros [index [_ F]]; discriminate F]. }
  destruct (Date_parse (executeAt o)) as [t|].
  2:{ split; [discriminate | intros [index [_ F]]; discriminate F]. }
  rewrite andb_true_iff, Z.leb_le, Z.ltb_lt. unfold past24Hours. split.
  - intros [Hlo Hhi].
    set (k := (t - (now - 24 * 60 * 60 * 1000)) / 3600000).
    assert (Hk : 3600000 * k <= t - (now - 24 * 60 * 60 * 1000)
                 < 3600000 * (k + 1)).
    { unfold k. Z.div_mod_to_equations. lia. }
    exists (Z.to_nat k). split; [nia|].
    rewrite andb_true_iff, Z.leb_le, Z.ltb_lt, Z2Nat.id by nia. lia.
  - intros [index [Hi Hb]].
    rewrite andb_true_iff, Z.leb_le, Z.ltb_lt in Hb. lia.
Qed.

Lemma labels_length (now : Z) : List.length (labels now) = 24%nat.
Proof. unfold labels. rewrite length_map, length_seq. reflexivity. Qed.

Lemma data_length (now : Z) (orders : list DCAOrder) :
  List.length (data now orders) = 24%nat.
Proof.
  unfold data. rewrite length_map, length_seq. apply labels_length.
Qed.

Lemma data_nth (now : Z) (orders : list DCAOrder) (index : nat) (d : Q) :
  (index < 24)%nat ->
  nth index (data now orders) d = hourValue now index orders.
Proof.
  intros Hi. unfold data. rewrite labels_length.
  rewrite (nth_indep _ d (hourValue now 0%nat orders))
    by (rewrite length_map, length_seq; exact Hi).
  rewrite (map_nth (fun index => hourValue now index orders)).
  rewrite seq_nth by exact Hi. reflexivity.
Qed.

(** With a steady offset an order of the trailing day is in one of the 24
    buckets, and an order of a bucket is of the trailing day. *)
Lemma inTrailingDay_bucket (now : Z) (o : DCAOrder) :
  SteadyOffset (past24Hours now) now ->
  inTrailingDay now o = true <->
  exists index, (index < 24)%nat /\ inBucket now index o.
Proof.
  intros Hs. rewrite inTrailingDay_elapsed.
  split; intros [index [Hi Hb]]; exists index; (split; [exact Hi|]).
  - apply inHour_spec. rewrite (inHour_elapsed now index o Hs Hi). exact Hb.
  - rewrite <- (inHour_elapsed now index o Hs Hi). apply inHour_spec. exact Hb.
Qed.

End AggregationFacts.

(** C4, as stated, fails in two ways.  Where the offset of local time
    changes inside the trailing day the buckets are not the 24 hours of
    that day: in New York at 2024-03-10T12:00Z the buckets at indexes 19 and
    20 are both the hour from 07:00Z, and the hour before [now] has no
    bucket, so of two USDC orders, of amounts 1 and 2, due at 07:30Z and at
    11:30Z, the first is counted twice and the second not at all: the
    values add up to 2, the amounts to 3.  And a bucket value is a sum of
    doubles, rounded at each addition: with one bucket holding the doubles
    nearest to 0.1 and to 0.2 the value is not the sum of the two. *)
Lemma buckets_do_not_conserve :
  let now := 1710072000000 in
  let a := mkOrder "order-0" "u1" "USDC" "BTC" 1 "daily"
                   "2024-03-09T12:00:00.000Z" "2024-03-10T07:30:00.000Z" in
  let b := mkOrder "order-1" "u2" "USDC" "RAY" 2 "daily"
                   "2024-03-09T12:00:00.000Z" "2024-03-10T11:30:00.000Z" in
  let c := mkOrder "order-2" "u3" "USDC" "BTC" (roundToDouble (1 # 10)) "daily"
                   "2024-03-09T12:00:00.000Z" "2024-03-10T11:30:00.000Z" in
  let d := mkOrder "order-3" "u4" "USDC" "RAY" (roundToDouble (2 # 10)) "daily"
                   "2024-03-09T12:00:00.000Z" "2024-03-10T11:40:00.000Z" in
  (hourStart (zone := newYork2024) now 19 = 1710054000000 /\
   hourStart (zone := newYork2024) now 20 = 1710054000000 /\
   hourEnd (zone := newYork2024) now 23 = 1710068400000 /\
   (Qsum (snd (fetchAggregateUSDCValue (zone := newYork2024) now [a; b]))
    == 2)%Q /\
   (Qsum (map amount (filter (inTrailingDay now) [a; b])) == 3)%Q /\
   ~ (Qsum (snd (fetchAggregateUSDCValue (zone := newYork2024) now [a; b]))
      == Qsum (map amount (filter (inTrailingDay now) [a; b])))%Q) /\
  ((Qsum (snd (fetchAggregateUSDCValue (zone := utcZone) now [c; d]))
    == 5404319552844596 # 18014398509481984)%Q /\
   (Qsum (map amount (filter (inTrailingDay now) [c; d]))
    == 10808639105689191 # 36028797018963968)%Q /\
   ~ (Qsum (snd (fetchAggregateUSDCValue (zone := utcZone) now [c; d]))
      == Qsum (map amount (filter (inTrailingDay now) [c; d])))%Q).
Proof.
  vm_compute. repeat split; try (intros E; discriminate E).
Qed.

(** C4, amended.  Where the offset of local time does not change inside
    the trailing day, the 24 buckets are disjoint and cover that day: an
    order is in at most one bucket, and it is in some bucket exactly when
    its input mint is USDC and its execution instant lies in the 24 hours
    that end at [now].  The value of the bucket at [index] is the sum,
    taken in list order and rounded at each addition, of the amounts of the
    USDC orders due from [index] hours to less than [index + 1] hours after
    the start of that day.  When, besides, no addition rounds (each value
    is the exact sum of the amounts of its bucket), the 24 values add up to
    the total amount of those orders. *)
Theorem buckets_conserve_total_amount
        `{Host} {zone : TimeZone} (now : Z) (orders : list DCAOrder) :
  SteadyOffset (past24Hours now) now ->
  (forall o i j, (i < 24)%nat -> (j < 24)%nat ->
                 inBucket now i o -> inBucket now j o -> i = j) /\
  (forall o, inTrailingDay now o = true <->
             exists index, (index < 24)%nat /\ inBucket now index o) /\
  (forall index, (index < 24)%nat ->
     nth index (snd (fetchAggregateUSDCValue now orders)) 0%Q
     = fold_left (fun sum order => number_add sum (amount order))
                 (filter (inElapsedHour now index) orders) 0%Q) /\
  ((forall index, (index < 24)%nat ->
      (hourValue now index orders
       == Qsum (map amount (filter (inHour now index) orders)))%Q) ->
   (Qsum (snd (fetchAggregateUSDCValue now orders))
    == Qsum (map amount (filter (inTrailingDay now) orders)))%Q).
Proof.
  intros Hs. split; [|split; [|split]].
  - intros o i j Hi Hj Bi Bj. apply inHour_spec in Bi, Bj.
    rewrite (inHour_elapsed now i o Hs Hi) in Bi.
    rewrite (inHour_elapsed now j o Hs Hj) in Bj.
    exact (inElapsedHour_unique now i j o Bi Bj).
  - intros o. apply inTrailingDay_bucket. exact Hs.
  - intros index Hi. unfold fetchAggregateUSDCValue. cbn [snd].
    rewrite data_nth by exact Hi. unfold hourValue. f_equal.
    apply filter_ext. intros o. apply inHour_elapsed; assumption.
  - intros Hexact. unfold fetchAggregateUSDCValue. cbn [snd]. unfold data.
    rewrite labels_length.
    rewrite (Qsum_map_ext_in _
               (fun index =>
                  Qsum (map amount (filter (inElapsedHour now index) orders)))).
    + rewrite hours_total.
      apply eq_ind with (P := fun l => (Qsum (map amount l) == _)%Q)
                        (x := filter (inTrailingDay now) orders);
        [reflexivity|].
      apply filter_ext. intros o. symmetry. apply inFirstHours_24.
    + intros index Hin. apply in_seq in Hin. rewrite Hexact by lia.
      apply eq_ind with (P := fun l => (Qsum (map amount l) == _)%Q)
                        (x := filter (inElapsedHour now index) orders);
        [reflexivity|].
      apply filter_ext. intros o. symmetry. apply inHour_elapsed; [exact Hs|lia].
Qed.

Lemma newYork2024_steady_in_winter (lo hi : Z) :
  hi <= 1710000000000 -> SteadyOffset (zone := newYork2024) lo hi.
Proof.
  intros Hhi. exists (-18000000). split.
  - intros t Ht. simpl.
    destruct (Z.leb_spec 1710054000000 t); [lia | reflexivity].
  - intros tl Ht. simpl.
    destruct (Z.leb_spec 1710039600000 tl); [lia | reflexivity].
Qed.

Lemma buckets_conserve_total_amount_witness :
  let now := Scenario.now + 3 * 3600000 in
  SteadyOffset (zone := newYork2024) (past24Hours now) now /\
  (Qsum (snd (fetchAggregateUSDCValue (zone := newYork2024) now
                                      [Scenario.o1; Scenario.o2]))
   == Qsum (map amount (filter (inTrailingDay now)
                               [Scenario.o1; Scenario.o2])))%Q.
Proof.
  intros now. subst now.
  assert (Hs : SteadyOffset (zone := newYork2024)
                 (past24Hours (Scenario.now + 3 * 3600000))
                 (Scenario.now + 3 * 3600000)).
  { apply newYork2024_steady_in_winter. vm_compute. discriminate. }
  split; [exact Hs|].
  destruct (buckets_conserve_total_amount
              (zone := newYork2024) (Scenario.now + 3 * 3600000)
              [Scenario.o1; Scenario.o2] Hs) as (_ & _ & _ & Hsum).
  apply Hsum. intros index Hi.
  do 24 (destruct index as [|index]; [vm_compute; reflexivity|]).
  lia.
Defined.

(** C5.  Whatever the order list and the time zone, the result has 24
    labels and 24 values, and the value of a bucket that no order falls in
    is zero. *)
Theorem aggregate_always_has_24_buckets
        `{Host} {zone : TimeZone} (now : Z) (orders : list DCAOrder) :
  List.length (fst (fetchAggregateUSDCValue now orders)) = 24%nat /\
  List.length (snd (fetchAggregateUSDCValue now orders)) = 24%nat /\
  (forall index,
      (index < 24)%nat ->
      (forall o, In o orders -> ~ inBucket now index o) ->
      nth index (snd (fetchAggregateUSDCValue now orders)) 0%Q = 0%Q).
Proof.
  split; [apply labels_length|]. split; [apply data_length|].
  intros index Hi Hnone. unfold fetchAggregateUSDCValue. cbn [snd].
  rewrite data_nth by exact Hi.
  unfold hourValue. rewrite filter_none; [reflexivity|].
  intros o Hin. destruct (inHour now index o) eqn:E; [|reflexivity].
  exfalso. apply (Hnone o Hin). apply inHour_spec. exact E.
Qed.

(** With no orders at all every one of the 24 values is zero. *)
Example aggregate_of_no_orders :
  snd (fetchAggregateUSDCValue (zone := utcZone) 1709296215250 [])
  = repeat 0%Q 24.
Proof. reflexivity. Qed.

Example aggregate_labels_reference :
  firstn 3 (fst (fetchAggregateUSDCValue (zone := utcZone) 1709296215250 []))
  = ["12:30"; "13:30"; "14:30"].
Proof. vm_compute. reflexivity. Qed.

(** On the day the clocks go forward the empty-bucket rule still holds of
    the buckets the code makes: the order due at 07:30Z is in the buckets at
    indexes 19 and 20, and the bucket at index 21 is empty. *)
Example aggregate_on_a_switch_day :
  let a := mkOrder "order-0" "u1" "USDC" "BTC" 1 "daily"
                   "2024-03-09T12:00:00.000Z" "2024-03-10T07:30:00.000Z" in
  firstn 3 (skipn 19 (snd (fetchAggregateUSDCValue (zone := newYork2024)
                                                   1710072000000 [a])))
  = [1%Q; 1%Q; 0%Q].
Proof. vm_compute. reflexivity. Qed.

(** ** [Array.prototype.sort] *)

Section ArraySortFacts.
Context {A : Type} (comparefn : A -> A -> Z).

(** [before x y]: the comparator puts [x] strictly before [y]. *)
Let before (x y : A) : Prop := comparefn x y < 0.

Lemma insertSorted_perm (x : A) (l : list A) :
  Permutation (insertSorted comparefn x l) (x :: l).
Proof.
  induction l as [|y l IH]; simpl; [reflexivity|].
  destruct (comparefn x y <? 0); [|reflexivity].
  rewrite IH. apply perm_swap.
Qed.

Lemma fold_insertSorted_perm (l acc : list A) :
  Permutation (fold_left (fun s x => insertSorted comparefn x s) l acc)
              (acc ++ l).
Proof.
  revert acc. induction l as [|x l IH]; intros acc; simpl.
  - rewrite app_nil_r. reflexivity.
  - rewrite IH, insertSorted_perm. apply Permutation_middle.
Qed.

(** The sort rearranges; it neither loses nor invents an element. *)
Lemma Array_sort_perm (l : list A) : Permutation (Array_sort comparefn l) l.
Proof.
  unfold Array_sort. rewrite <- Permutation_rev.
  apply (fold_insertSorted_perm l []).
Qed.

Lemma Array_sort_length (l : list A) :
  List.length (Array_sort comparefn l) = List.length l.
Proof. apply Permutation_length, Array_sort_perm. Qed.

Lemma fold_insertSorted_keep (l acc : list A) :
  (forall x y, In x l -> In y (acc ++ l) -> 0 <= comparefn x y) ->
  fold_left (fun s x => insertSorted comparefn x s) l acc = rev l ++ acc.
Proof.
  revert acc. induction l as [|x l IH]; intros acc Hge; simpl; [reflexivity|].
  assert (E : insertSorted comparefn x acc = x :: acc).
  { destruct acc as [|y acc]; simpl; [reflexivity|].
    destruct (Z.ltb_spec (comparefn x y) 0) as [Hlt|_]; [|reflexivity].
    assert (0 <= comparefn x y) by (apply Hge; simpl; auto).
    lia. }
  rewrite E, IH, <- app_assoc; [reflexivity|].
  intros x' y Hx' Hy. apply Hge; [right; exact Hx'|].
  apply in_app_iff. simpl in Hy. rewrite in_app_iff in Hy. simpl.
  intuition.
Qed.

(** A comparator that never answers "before" leaves the array as it is. *)
Lemma Array_sort_keep (l : list A) :
  (forall x y, In x l -> In y l -> 0 <= comparefn x y) ->
  Array_sort comparefn l = l.
Proof.
  intros Hge. unfold Array_sort.
  rewrite fold_insertSorted_keep by exact Hge.
  rewrite app_nil_r. apply rev_involutive.
Qed.

(** Sortedness, when [before] is transitive and decides every pair of
    positions one way or the other. *)
Hypothesis before_trans :
  forall x y z, before x y -> before y z -> before x z.

Lemma insertSorted_sorted (x : A) (l : list A) :
  StronglySorted (fun a b => before b a) l ->
  Forall (fun y => before x y \/ before y x) l ->
  StronglySorted (fun a b => before b a) (insertSorted comparefn x l).
Proof.
  induction l as [|y l IH]; intros Hs Hx; simpl.
  - constructor; constructor.
  - apply StronglySorted_inv in Hs. destruct Hs as [Hs Hy].
    inversion Hx as [|? ? Hxy Hxl]; subst.
    destruct (Z.ltb_spec (comparefn x y) 0) as [Hlt|Hge].
    + constructor; [apply IH; assumption|].
      apply (Permutation_Forall (x := x :: l));
        [symmetry; apply insertSorted_perm|].
      constructor; assumption.
    + assert (Hyx : before y x) by (destruct Hxy as [F|F]; [unfold before in F; lia | exact F]).
      constructor; [constructor; assumption|].
      constructor; [exact Hyx|].
      rewrite Forall_forall in Hy |- *. intros z Hz.
      apply before_trans with y; auto.
Qed.

Lemma Forall_insertSorted (P : A -> Prop) (x : A) (l : list A) :
  P x -> Forall P l -> Forall P (insertSorted comparefn x l).
Proof.
  intros Hx Hl. apply (Permutation_Forall (x := x :: l));
    [symmetry; apply insertSorted_perm | constructor; assumption].
Qed.

Lemma fold_insertSorted_sorted (l acc : list A) :
  StronglySorted (fun a b => before b a) acc ->
  Forall (fun x => Forall (fun y => before x y \/ before y x) acc) l ->
  ForallOrdPairs (fun a b => before a b \/ before b a) l ->
  StronglySorted (fun a b => before b a)
                 (fold_left (fun s x => insertSorted comparefn x s) l acc).
Proof.
  revert acc. induction l as [|x l IH]; intros acc Hs Hacc Hl; simpl.
  - exact Hs.
  - inversion Hacc as [|? ? Hx Hrest]; subst.
    inversion Hl as [|? ? Hxl Hl']; subst.
    apply IH; [apply insertSorted_sorted; assumption | | exact Hl'].
    rewrite Forall_forall in Hrest, Hxl |- *. intros z Hz.
    apply Forall_insertSorted; [|apply Hrest; exact Hz].
    destruct (Hxl z Hz); auto.
Qed.

Lemma StronglySorted_snoc (R : A -> A -> Prop) (l : list A) (a : A) :
  StronglySorted R l -> Forall (fun y => R y a) l ->
  StronglySorted R (l ++ [a]).
Proof.
  induction l as [|y l IH]; intros Hs Ha; simpl.
  - constructor; constructor.
  - apply StronglySorted_inv in Hs. destruct Hs as [Hs Hy].
    inversion Ha; subst.
    constructor; [apply IH; assumption|].
    apply Forall_app. split; [exact Hy | constructor; [assumption|constructor]].
Qed.

Lemma StronglySorted_rev (R : A -> A -> Prop) (l : list A) :
  StronglySorted (fun a b => R b a) l -> StronglySorted R (rev l).
Proof.
  induction l as [|y l IH]; intros Hs; simpl; [constructor|].
  apply StronglySorted_inv in Hs. destruct Hs as [Hs Hy].
  apply StronglySorted_snoc; [apply IH; exact Hs|].
  apply Forall_rev. exact Hy.
Qed.

(** The sorted prefix, which the sort keeps back to front. *)
Lemma Array_sort_rev_sorted (l : list A) :
  ForallOrdPairs (fun a b => before a b \/ before b a) l ->
  StronglySorted (fun a b => before b a) (rev (Array_sort comparefn l)).
Proof.
  intros Hl. unfold Array_sort. rewrite rev_involutive.
  apply fold_insertSorted_sorted; [constructor | | exact Hl].
  apply Forall_forall. intros; constructor.
Qed.

Lemma Array_sort_sorted (l : list A) :
  ForallOrdPairs (fun a b => before a b \/ before b a) l ->
  StronglySorted before (Array_sort comparefn l).
Proof.
  intros Hl. rewrite <- (rev_involutive (Array_sort comparefn l)).
  apply StronglySorted_rev, Array_sort_rev_sorted, Hl.
Qed.

End ArraySortFacts.

(** *** The other engine *)

Section ArraySortAltFacts.
Context {A : Type} (comparefn : A -> A -> Z).

Lemma insertSortedAlt_perm (x : A) (l : list A) :
  Permutation (insertSortedAlt comparefn x l) (x :: l).
Proof.
  induction l as [|y l IH]; simpl; [reflexivity|].
  destruct (0 <? comparefn y x); [|reflexivity].
  rewrite IH. apply perm_swap.
Qed.

Lemma fold_insertSortedAlt_perm (l acc : list A) :
  Permutation (fold_left (fun s x => insertSortedAlt comparefn x s) l acc)
              (acc ++ l).
Proof.
  revert acc. induction l as [|x l IH]; intros acc; simpl.
  - rewrite app_nil_r. reflexivity.
  - rewrite IH, insertSortedAlt_perm. apply Permutation_middle.
Qed.

Lemma Array_sort_alt_perm (l : list A) :
  Permutation (Array_sort_alt comparefn l) l.
Proof.
  unfold Array_sort_alt. rewrite <- Permutation_rev.
  apply (fold_insertSortedAlt_perm l []).
Qed.

(** The two engines give the same array for a comparator whose answers
    for a pair and for the swapped pair have opposite signs. *)
Lemma insertSortedAlt_agrees (x : A) (l : list A) :
  (forall y, In y l -> (0 < comparefn y x <-> comparefn x y < 0)) ->
  insertSortedAlt comparefn x l = insertSorted comparefn x l.
Proof.
  induction l as [|y l IH]; simpl; intros Hc; [reflexivity|].
  pose proof (Hc y (or_introl eq_refl)) as Hy.
  destruct (Z.ltb_spec 0 (comparefn y x)), (Z.ltb_spec (comparefn x y) 0);
    try lia; [|reflexivity].
  f_equal. apply IH. intros z Hz. apply Hc. right. exact Hz.
Qed.

Lemma fold_insertSortedAlt_agrees (l acc : list A) :
  (forall x y, 0 < comparefn y x <-> comparefn x y < 0) ->
  fold_left (fun s x => insertSortedAlt comparefn x s) l acc
  = fold_left (fun s x => insertSorted comparefn x s) l acc.
Proof.
  intros Hc. revert acc. induction l as [|x l IH]; intros acc; simpl;
    [reflexivity|].
  rewrite insertSortedAlt_agrees by (intros y _; apply Hc). apply IH.
Qed.

Lemma Array_sort_alt_agrees (l : list A) :
  (forall x y, 0 < comparefn y x <-> comparefn x y < 0) ->
  Array_sort_alt comparefn l = Array_sort comparefn l.
Proof.
  intros Hc. unfold Array_sort_alt, Array_sort.
  rewrite fold_insertSortedAlt_agrees by exact Hc. reflexivity.
Qed.

(** A comparator that is never positive leaves the array as it is. *)
Lemma Array_sort_alt_keep (l : list A) :
  (forall x y, comparefn x y <= 0) -> Array_sort_alt comparefn l = l.
Proof.
  intros Hle. unfold Array_sort_alt.
  assert (E : forall l acc,
             fold_left (fun s x => insertSortedAlt comparefn x s) l acc
             = rev l ++ acc).
  { clear l. induction l as [|x l IH]; intros acc; simpl; [reflexivity|].
    assert (Ex : insertSortedAlt comparefn x acc = x :: acc).
    { destruct acc as [|y acc]; simpl; [reflexivity|].
      destruct (Z.ltb_spec 0 (comparefn y x)) as [Hlt|_]; [|reflexivity].
      specialize (Hle y x). lia. }
    rewrite Ex, IH, <- app_assoc. reflexivity. }
  rewrite E, app_nil_r. apply rev_involutive.
Qed.

(** A comparator that is always positive has it reversed. *)
Lemma Array_sort_alt_reverses (l : list A) :
  (forall x y, 0 < comparefn x y) -> Array_sort_alt comparefn l = rev l.
Proof.
  intros Hpos. unfold Array_sort_alt.
  assert (Ex : forall x acc, insertSortedAlt comparefn x acc = acc ++ [x]).
  { intros x acc. induction acc as [|y acc IH]; simpl; [reflexivity|].
    destruct (Z.ltb_spec 0 (comparefn y x)) as [_|Hle].
    - now rewrite IH.
    - specialize (Hpos y x). lia. }
  assert (E : forall l acc,
             fold_left (fun s x => insertSortedAlt comparefn x s) l acc
             = acc ++ l).
  { clear l. induction l as [|x l IH]; intros acc; simpl.
    - now rewrite app_nil_r.
    - rewrite Ex, IH, <- app_assoc. reflexivity. }
  rewrite E. reflexivity.
Qed.

End ArraySortAltFacts.

(** Two arrangements of the same elements that are both sorted by an
    asymmetric relation are the same arrangement. *)
Lemma StronglySorted_unique {A : Type} (R : A -> A -> Prop) (l1 l2 : list A) :
  (forall x y, R x y -> ~ R y x) ->
  StronglySorted R l1 -> StronglySorted R l2 -> Permutation l1 l2 ->
  l1 = l2.
Proof.
  intros Hasym. revert l2.
  induction l1 as [|a l1 IH]; intros l2 H1 H2 HP.
  - apply Permutation_nil in HP. now subst.
  - destruct l2 as [|b l2].
    + symmetry in HP. apply Permutation_nil in HP. discriminate HP.
    + apply StronglySorted_inv in H1, H2.
      destruct H1 as [H1 Ha], H2 as [H2 Hb].
      assert (E : a = b).
      { assert (Ia : In a (b :: l2))
          by (apply (Permutation_in _ HP); left; reflexivity).
        assert (Ib : In b (a :: l1))
          by (apply (Permutation_in _ (Permutation_sym HP)); left; reflexivity).
        destruct Ia as [->|Ia]; [reflexivity|].
        destruct Ib as [->|Ib]; [reflexivity|].
        rewrite Forall_forall in Ha, Hb.
        exfalso. apply (Hasym a b); auto. }
      subst b. f_equal. apply IH; try assumption.
      apply Permutation_cons_inv with a. exact HP.
Qed.

Lemma StronglySorted_iff {A : Type} (R S : A -> A -> Prop) (l : list A) :
  (forall x y, R x y -> S x y) -> StronglySorted R l -> StronglySorted S l.
Proof.
  intros HRS. induction 1 as [|a l Hs IH Ha]; constructor; [exact IH|].
  eapply Forall_impl; [|exact Ha]. intros y. apply HRS.
Qed.

Lemma ForallOrdPairs_iff {A : Type} (P Q : A -> A -> Prop) (l : list A) :
  (forall x y, P x y -> Q x y) -> ForallOrdPairs P l -> ForallOrdPairs Q l.
Proof.
  intros HPQ. induction 1 as [|a l Ha Hl IH]; constructor; [|exact IH].
  eapply Forall_impl; [|exact Ha]. intros y. apply HPQ.
Qed.

(** ** Comparing property values *)

Lemma String_ltb_Lt (a b : string) :
  String.ltb a b = true <-> String.compare a b = Lt.
Proof.
  unfold String.ltb. destruct (String.compare a b); split; intros E;
    (reflexivity || discriminate E).
Qed.

Lemma Qltb_lt (x y : Q) : Qltb x y = true <-> (x < y)%Q.
Proof.
  unfold Qltb. rewrite negb_true_iff, <- not_true_iff_false, Qle_bool_iff.
  split; [apply Qnot_le_lt | apply Qlt_not_le].
Qed.

Lemma js_lt_trans (x y z : JSValue) :
  js_lt x y = true -> js_lt y z = true -> js_lt x z = true.
Proof.
  destruct x as [a|a|], y as [b|b|], z as [c|c|]; simpl; try discriminate.
  - rewrite !String_ltb_Lt. apply String_compare_Lt_trans.
  - rewrite !Qltb_lt. apply Qlt_trans.
Qed.

Lemma js_lt_asym (x y : JSValue) :
  js_lt x y = true -> js_lt y x = false.
Proof.
  destruct x as [a|a|], y as [b|b|]; simpl; try discriminate; intros Hxy;
    apply not_true_iff_false; intros Hyx.
  - rewrite String_ltb_Lt in Hxy, Hyx.
    rewrite String.compare_antisym, Hyx in Hxy. discriminate Hxy.
  - rewrite Qltb_lt in Hxy, Hyx. lra.
Qed.

(** ** Sort engine *)

Section SortFacts.
Context `{Host}.

Lemma getProp_unknown (o : DCAOrder) (k : string) :
  knownKey k = false -> getProp o k = JSUndefined.
Proof.
  unfold knownKey, getProp. simpl. rewrite !orb_false_iff.
  intros (E1 & E2 & E3 & E4 & E5 & E6 & E7 & E8 & _).
  now rewrite E1, E2, E3, E4, E5, E6, E7, E8.
Qed.

Lemma knownKey_tokenPair (k : string) :
  knownKey k = false -> (k =? "tokenPair")%string = false.
Proof.
  unfold knownKey. simpl. rewrite !orb_false_iff. intuition.
Qed.

(** Ascending, "before" is: smaller pair, or smaller property value. *)
Lemma compareOrders_ascend_neg (k : string) (a b : DCAOrder) :
  compareOrders (mkSort k (Some ascend)) a b < 0 <->
  if (k =? "tokenPair")%string
  then localeCompare (tokenPair a) (tokenPair b) < 0
  else js_lt (getProp a k) (getProp b k) = true.
Proof.
  unfold compareOrders. simpl.
  destruct (k =? "tokenPair")%string; [reflexivity|].
  destruct (js_lt (getProp a k) (getProp b k)); split; intros E;
    (reflexivity || lia || discriminate E).
Qed.

(** Descending, "before" is ascending "before" with the sides swapped. *)
Lemma compareOrders_descend_neg (k : string) (a b : DCAOrder) :
  compareOrders (mkSort k (Some descend)) a b < 0 <->
  compareOrders (mkSort k (Some ascend)) b a < 0.
Proof.
  rewrite compareOrders_ascend_neg. unfold compareOrders, js_gt. simpl.
  destruct (k =? "tokenPair")%string; [reflexivity|].
  destruct (js_lt (getProp b k) (getProp a k)); split; intros E;
    (reflexivity || lia || discriminate E).
Qed.

Lemma compareOrders_ascend_trans (k : string) (a b c : DCAOrder) :
  compareOrders (mkSort k (Some ascend)) a b < 0 ->
  compareOrders (mkSort k (Some ascend)) b c < 0 ->
  compareOrders (mkSort k (Some ascend)) a c < 0.
Proof.
  rewrite !compareOrders_ascend_neg.
  destruct (k =? "tokenPair")%string.
  - apply localeCompare_trans.
  - apply js_lt_trans.
Qed.

Lemma compareOrders_ascend_asym (k : string) (a b : DCAOrder) :
  compareOrders (mkSort k (Some ascend)) a b < 0 ->
  ~ compareOrders (mkSort k (Some ascend)) b a < 0.
Proof.
  rewrite !compareOrders_ascend_neg.
  destruct (k =? "tokenPair")%string.
  - intros Hab Hba. apply localeCompare_asym in Hab. lia.
  - intros Hab Hba. apply js_lt_asym in Hab. congruence.
Qed.

(** With an unknown key the comparator never answers "before". *)
Lemma compareOrders_unknown (k : string) (d : option Direction)
      (a b : DCAOrder) :
  knownKey k = false -> 0 <= compareOrders (mkSort k d) a b.
Proof.
  intros Hk. unfold compareOrders, js_gt. simpl.
  rewrite (knownKey_tokenPair k Hk), !(getProp_unknown _ k Hk). simpl.
  destruct d as [[|]|]; lia.
Qed.

(** Distinct texts, distinct amounts and pairs that the collation tells
    apart do not tie. *)
Lemma strictlyOrdered_strings (k : string) (a b : DCAOrder) (s t : string) :
  getProp a k = JSString s -> getProp b k = JSString t ->
  (k =? "tokenPair")%string = false ->
  s <> t -> strictlyOrdered k a b.
Proof.
  intros Ea Eb Ek Hne. unfold strictlyOrdered.
  rewrite !compareOrders_ascend_neg, Ek, Ea, Eb. simpl.
  rewrite !String_ltb_Lt, (String.compare_antisym t s).
  destruct (String.compare s t) eqn:E; simpl; auto.
  apply String.compare_eq_iff in E. contradiction.
Qed.

Lemma strictlyOrdered_amounts (a b : DCAOrder) :
  ~ (amount a == amount b)%Q -> strictlyOrdered "amount" a b.
Proof.
  intros Hne. unfold strictlyOrdered.
  rewrite !compareOrders_ascend_neg. simpl. rewrite !Qltb_lt.
  destruct (Q_dec (amount a) (amount b)) as [[Hlt|Hgt]|Heq]; auto.
  contradiction.
Qed.

Lemma strictlyOrdered_pairs (a b : DCAOrder) :
  localeCompare (tokenPair a) (tokenPair b) < 0 \/
  localeCompare (tokenPair b) (tokenPair a) < 0 ->
  strictlyOrdered "tokenPair" a b.
Proof.
  unfold strictlyOrdered. rewrite !compareOrders_ascend_neg. simpl. auto.
Qed.

End SortFacts.

(** The sort keeps every order and adds none, for every configuration. *)
Lemma sortEngine_perm `{Host} (sortConfig : SortConfig) (orders : list DCAOrder) :
  Permutation (sortEngine sortConfig orders) orders.
Proof. apply Array_sort_perm. Qed.

(** C6, as stated, fails on ties.  Two orders with the same token pair keep
    their input order in both directions, so the reversed ascending result
    is not the descending result. *)
Lemma sort_reverse_differs_on_ties :
  let o3 := Scenario.o3 in
  let o4 := Scenario.o4 in
  rev (sortEngine (mkSort "tokenPair" (Some ascend)) [o3; o4]) = [o4; o3] /\
  sortEngine (mkSort "tokenPair" (Some descend)) [o3; o4] = [o3; o4] /\
  rev (sortEngine (mkSort "tokenPair" (Some ascend)) [o3; o4]) <>
  sortEngine (mkSort "tokenPair" (Some descend)) [o3; o4].
Proof.
  split; [reflexivity|]. split; [reflexivity|].
  intros E. vm_compute in E. discriminate E.
Qed.

(** C6, amended.  For every sort key, when no two orders of the list tie
    under the key, sorting ascending and reversing gives the same sequence
    as sorting descending. *)
Theorem sort_ascending_reversed_is_descending
        `{Host} (k : string) (orders : list DCAOrder) :
  noTies k orders ->
  rev (sortEngine (mkSort k (Some ascend)) orders) =
  sortEngine (mkSort k (Some descend)) orders.
Proof.
  intros Hties. unfold sortEngine.
  apply (StronglySorted_unique
           (fun a b => compareOrders (mkSort k (Some ascend)) b a < 0)).
  - intros x y Hxy Hyx. exact (compareOrders_ascend_asym k y x Hxy Hyx).
  - apply Array_sort_rev_sorted.
    + intros x y z. apply compareOrders_ascend_trans.
    + exact Hties.
  - apply StronglySorted_iff
      with (R := fun a b => compareOrders (mkSort k (Some descend)) a b < 0).
    + intros x y. apply compareOrders_descend_neg.
    + apply Array_sort_sorted.
      * intros x y z. rewrite !compareOrders_descend_neg.
        intros Hyx Hzy. exact (compareOrders_ascend_trans k z y x Hzy Hyx).
      * apply ForallOrdPairs_iff with (P := strictlyOrdered k); [|exact Hties].
        intros x y. unfold strictlyOrdered.
        rewrite !compareOrders_descend_neg. tauto.
  - rewrite <- Permutation_rev. rewrite !Array_sort_perm. reflexivity.
Qed.

Lemma sort_ascending_reversed_is_descending_witness :
  let o1 := Scenario.o1 in
  let o2 := Scenario.o2 in
  noTies "amount" [o1; o2] /\
  rev (sortEngine (mkSort "amount" (Some ascend)) [o1; o2]) =
  sortEngine (mkSort "amount" (Some descend)) [o1; o2].
Proof.
  assert (Hties : noTies "amount" [Scenario.o1; Scenario.o2]).
  { apply FOP_cons.
    - apply Forall_cons; [|apply Forall_nil]. right. vm_compute. reflexivity.
    - apply FOP_cons; [apply Forall_nil | apply FOP_nil]. }
  split; [exact Hties|].
  apply (sort_ascending_reversed_is_descending
           "amount" [Scenario.o1; Scenario.o2] Hties).
Defined.

(** C7, as stated, holds of one engine and fails of another.  With the
    key "price", which no order has, and a direction set, the comparator
    answers 1 for every pair.  The engine that moves an element only on a
    negative answer returns the list as it was; the engine that asks about
    the swapped pair returns it reversed, which is not what it returns when
    the direction is unset. *)
Lemma sort_unknown_key_reverses_on_other_engine :
  let o1 := Scenario.o1 in
  let o2 := Scenario.o2 in
  knownKey "price" = false /\
  compareOrders (mkSort "price" (Some ascend)) o1 o2 = 1 /\
  compareOrders (mkSort "price" (Some ascend)) o2 o1 = 1 /\
  sortEngine (mkSort "price" (Some ascend)) [o1; o2] = [o1; o2] /\
  sortEngineAlt (mkSort "price" (Some ascend)) [o1; o2] = [o2; o1] /\
  sortEngineAlt (mkSort "price" None) [o1; o2] = [o1; o2].
Proof. vm_compute. repeat split. Qed.

(** Where the answers for a pair and for the swapped pair have opposite
    signs the two engines are one ([Array_sort_alt_agrees]); so they are for
    the field "id" of orders with different ids. *)
Example engines_agree_on_id :
  sortEngineAlt (mkSort "id" (Some ascend))
                [Scenario.o3; Scenario.o1; Scenario.o4; Scenario.o2]
  = sortEngine (mkSort "id" (Some ascend))
               [Scenario.o3; Scenario.o1; Scenario.o4; Scenario.o2] /\
  sortEngine (mkSort "id" (Some ascend))
             [Scenario.o3; Scenario.o1; Scenario.o4; Scenario.o2]
  = [Scenario.o1; Scenario.o2; Scenario.o3; Scenario.o4].
Proof. vm_compute. split; reflexivity. Qed.

(** C7, amended.  With a key that names neither a field of the record nor
    the token pair, the comparator never orders a pair: it answers 0 for
    every pair when the direction is unset and 1 for every pair otherwise.
    The sort does not fail and returns the orders it was given, each as
    often as it was given, on either engine.  With the direction unset the
    list comes back unchanged on either engine.  With a direction set the
    list comes back unchanged from the engine that moves an element only on
    a negative answer, and reversed from the engine that asks about the
    swapped pair. *)
Theorem sortEngine_unknown_key_never_orders
        `{Host} (k : string) (d : option Direction) (orders : list DCAOrder) :
  knownKey k = false ->
  (forall a b, compareOrders (mkSort k d) a b
               = match d with None => 0 | Some _ => 1 end) /\
  (Permutation (sortEngine (mkSort k d) orders) orders /\
   Permutation (sortEngineAlt (mkSort k d) orders) orders) /\
  (sortEngine (mkSort k None) orders = orders /\
   sortEngineAlt (mkSort k None) orders = orders) /\
  sortEngine (mkSort k d) orders = orders /\
  (d <> None -> sortEngineAlt (mkSort k d) orders = rev orders).
Proof.
  intros Hk.
  assert (Hcmp : forall d' a b, compareOrders (mkSort k d') a b
                                = match d' with None => 0 | Some _ => 1 end).
  { intros d' a b. unfold compareOrders, js_gt. simpl.
    rewrite (knownKey_tokenPair k Hk), !(getProp_unknown _ k Hk). simpl.
    destruct d' as [[|]|]; reflexivity. }
  assert (Hkeep : forall d', sortEngine (mkSort k d') orders = orders).
  { intros d'. unfold sortEngine. apply Array_sort_keep.
    intros x y _ _. apply compareOrders_unknown. exact Hk. }
  split; [apply Hcmp|]. split; [split|split; [split|split]].
  - apply Array_sort_perm.
  - apply Array_sort_alt_perm.
  - apply Hkeep.
  - unfold sortEngineAlt. apply Array_sort_alt_keep.
    intros x y. rewrite Hcmp. lia.
  - apply Hkeep.
  - intros Hd. unfold sortEngineAlt. apply Array_sort_alt_reverses.
    intros x y. rewrite Hcmp. destruct d; [lia | contradiction].
Qed.

Lemma sortEngine_unknown_key_never_orders_witness :
  let o1 := Scenario.o1 in
  let o2 := Scenario.o2 in
  knownKey "price" = false /\
  Permutation (sortEngineAlt (mkSort "price" (Some ascend)) [o2; o1])
              [o2; o1] /\
  sortEngine (mkSort "price" None) [o2; o1] = [o2; o1] /\
  sortEngineAlt (mkSort "price" None) [o2; o1] = [o2; o1].
Proof.
  intros o1 o2. subst o1 o2.
  split; [reflexivity|].
  destruct (sortEngine_unknown_key_never_orders
              "price" (Some ascend) [Scenario.o2; Scenario.o1] eq_refl)
    as (_ & [_ Hperm] & [Hnone Hnone'] & _).
  split; [exact Hperm|]. split; [exact Hnone | exact Hnone'].
Defined.

(** C8.  In the component whose comparator tests the direction first, a
    null direction leaves the list as it was, for every key. *)
Theorem sortEnginePlain_unset_direction_is_noop
        (k : string) (orders : list DCAOrder) :
  sortEnginePlain (mkSort k None) orders = orders.
Proof.
  unfold sortEnginePlain. apply Array_sort_keep.
  intros x y _ _. unfold compareOrdersPlain. simpl. lia.
Qed.

(** In the component with the token-pair column the same holds for every
    key but the token pair, whose branch treats a null direction as
    descending. *)
Lemma sortEngine_unset_direction
      `{Host} (k : string) (orders : list DCAOrder) :
  (k =? "tokenPair")%string = false ->
  sortEngine (mkSort k None) orders = orders.
Proof.
  intros Hk. unfold sortEngine. apply Array_sort_keep.
  intros x y _ _. unfold compareOrders. simpl. rewrite Hk. lia.
Qed.

Example sortEngine_unset_direction_tokenPair :
  sortEngine (mkSort "tokenPair" None) [Scenario.o1; Scenario.o2]
  = [Scenario.o2; Scenario.o1].
Proof. reflexivity. Qed.

(** ** The scenarios of the design *)

Section ScenarioFacts.
Import Scenario.

Example next_hour_tab : relevantOrders now NextHour [o1; o2] = [o1].
Proof. vm_compute. reflexivity. Qed.

Example next_day_tab : relevantOrders now NextDay [o1; o2] = [o1; o2].
Proof. vm_compute. reflexivity. Qed.

Example amount_descending :
  filteredOrders now AllTab noFilters (mkSort "amount" (Some descend)) [o2; o1]
  = [o1; o2].
Proof. vm_compute. reflexivity. Qed.

Example search_sol :
  filterEngine (mkFilters "sol" "" "" "") [o1; o2] = [o1].
Proof. vm_compute. reflexivity. Qed.

(** Seen from three hours later, the second order was executed in the
    bucket that starts 23 hours after the start of the trailing day. *)
Example chart_three_hours_later :
  snd (fetchAggregateUSDCValue (zone := utcZone) (now + 3 * 3600000) [o1; o2])
  = repeat 0%Q 23 ++ [50%Q].
Proof. vm_compute. reflexivity. Qed.

End ScenarioFacts.

(** * Further properties *)

(** ** Sorting with ties *)

Section ArraySortOrdered.
Context {A : Type} (comparefn : A -> A -> Z).

Hypothesis before_asym :
  forall x y, comparefn x y < 0 -> ~ comparefn y x < 0.
Hypothesis before_neg_trans :
  forall x y z, comparefn x z < 0 -> comparefn x y < 0 \/ comparefn y z < 0.

Lemma insertSorted_ordered (x : A) (l : list A) :
  StronglySorted (fun a b => ~ comparefn a b < 0) l ->
  StronglySorted (fun a b => ~ comparefn a b < 0) (insertSorted comparefn x l).
Proof.
  induction l as [|y l IH]; intros Hs; simpl.
  - constructor; constructor.
  - apply StronglySorted_inv in Hs. destruct Hs as [Hs Hy].
    destruct (Z.ltb_spec (comparefn x y) 0) as [Hlt|Hge].
    + constructor; [apply IH; exact Hs|].
      apply Forall_insertSorted; [|exact Hy].
      apply before_asym. exact Hlt.
    + constructor; [constructor; assumption|].
      constructor; [lia|].
      rewrite Forall_forall in Hy |- *. intros z Hz Hxz.
      destruct (before_neg_trans x y z Hxz) as [F|F]; [lia|].
      exact (Hy z Hz F).
Qed.

Lemma fold_insertSorted_ordered (l acc : list A) :
  StronglySorted (fun a b => ~ comparefn a b < 0) acc ->
  StronglySorted (fun a b => ~ comparefn a b < 0)
                 (fold_left (fun s x => insertSorted comparefn x s) l acc).
Proof.
  revert acc. induction l as [|x l IH]; intros acc Hs; simpl; [exact Hs|].
  apply IH, insertSorted_ordered, Hs.
Qed.

(** Whatever the ties, no element of the result is strictly before an
    element that precedes it. *)
Lemma Array_sort_ordered (l : list A) :
  StronglySorted (fun a b => ~ comparefn b a < 0) (Array_sort comparefn l).
Proof.
  unfold Array_sort. apply StronglySorted_rev.
  apply fold_insertSorted_ordered. constructor.
Qed.

End ArraySortOrdered.

(** ** Property values of one key *)

Lemma getProp_sameKind (a b : DCAOrder) (k : string) :
  sameKind (getProp a k) (getProp b k).
Proof.
  unfold getProp.
  repeat match goal with
         | |- context [if ?c then _ else _] => destruct c
         end; exact I.
Qed.

Lemma getPropSimple_sameKind (a b : DCAOrder) (k : string) :
  sameKind (getPropSimple a k) (getPropSimple b k).
Proof.
  unfold getPropSimple. destruct (k =? "executeAt")%string;
    [exact I | apply getProp_sameKind].
Qed.

Lemma String_ltb_neg_trans (x y z : string) :
  String.ltb x z = true -> String.ltb x y = true \/ String.ltb y z = true.
Proof.
  rewrite !String_ltb_Lt. intros Hxz.
  destruct (String.compare x y) eqn:Exy; [right|left; reflexivity|right].
  - apply String.compare_eq_iff in Exy. subst y. exact Hxz.
  - apply String_compare_Lt_trans with x; [|exact Hxz].
    rewrite String.compare_antisym, Exy. reflexivity.
Qed.

Lemma js_lt_neg_trans (x y z : JSValue) :
  sameKind x y -> sameKind y z ->
  js_lt x z = true -> js_lt x y = true \/ js_lt y z = true.
Proof.
  destruct x as [a|a|], y as [b|b|], z as [c|c|]; simpl;
    try contradiction; try discriminate; intros _ _.
  - apply String_ltb_neg_trans.
  - rewrite !Qltb_lt. intros Hac.
    destruct (Qlt_le_dec a b) as [Hab|Hba]; [left; exact Hab|].
    right. lra.
Qed.

(** Neither smaller nor greater is an equivalence on the reads of one
    key. *)
Lemma js_tie_trans (x y z : JSValue) :
  sameKind x y -> sameKind y z ->
  js_lt x y = false -> js_lt y x = false ->
  js_lt y z = false -> js_lt z y = false ->
  js_lt x z = false /\ js_lt z x = false.
Proof.
  intros Kxy Kyz Hxy Hyx Hyz Hzy.
  assert (Kyx : sameKind y x) by (destruct x, y; simpl in *; auto).
  assert (Kzy : sameKind z y) by (destruct y, z; simpl in *; auto).
  split; apply not_true_iff_false; intros F.
  - destruct (js_lt_neg_trans x y z Kxy Kyz F); congruence.
  - destruct (js_lt_neg_trans z y x Kzy Kyx F); congruence.
Qed.

(** ** The comparators that answer 0 on ties *)

Lemma compareOrdersPlain_neg (k : string) (d : Direction) (a b : DCAOrder) :
  compareOrdersPlain (mkSort k (Some d)) a b < 0 <->
  match d with
  | ascend => js_lt (getProp a k) (getProp b k) = true
  | descend => js_lt (getProp b k) (getProp a k) = true
  end.
Proof.
  unfold compareOrdersPlain, js_gt. simpl.
  destruct (js_lt (getProp a k) (getProp b k)) eqn:Hab.
  - rewrite (js_lt_asym _ _ Hab). destruct d; split; intros E;
      (reflexivity || lia || discriminate E).
  - destruct (js_lt (getProp b k) (getProp a k)), d; split; intros E;
      (reflexivity || lia || discriminate E).
Qed.

Lemma compareOrdersPlain_zero (k : string) (d : Direction) (a b : DCAOrder) :
  compareOrdersPlain (mkSort k (Some d)) a b = 0 <->
  js_lt (getProp a k) (getProp b k) = false /\
  js_lt (getProp b k) (getProp a k) = false.
Proof.
  unfold compareOrdersPlain, js_gt. simpl.
  destruct (js_lt (getProp a k) (getProp b k));
    destruct (js_lt (getProp b k) (getProp a k)); destruct d;
    (split;
     [ intros E; try discriminate E; split; reflexivity
     | intros [E1 E2]; try discriminate E1; try discriminate E2; reflexivity ]).
Qed.

Lemma compareOrdersPlain_opp (sortConfig : SortConfig) (a b : DCAOrder) :
  compareOrdersPlain sortConfig a b = - compareOrdersPlain sortConfig b a.
Proof.
  unfold compareOrdersPlain, js_gt. destruct (direction sortConfig) as [d|];
    [|reflexivity].
  destruct (js_lt (getProp a (key sortConfig)) (getProp b (key sortConfig)))
    eqn:Hab.
  - rewrite (js_lt_asym _ _ Hab). destruct d; reflexivity.
  - destruct (js_lt (getProp b (key sortConfig)) (getProp a (key sortConfig)));
      destruct d; reflexivity.
Qed.

(** X3.  The comparator that tests the direction first is a consistent
    comparison function, for every key and direction: it answers -1, 0 or
    1; an order compares 0 with itself; swapping the sides negates the
    answer; "before" is transitive and "ties with" is transitive. *)
Theorem compareOrdersPlain_is_consistent (sortConfig : SortConfig) :
  (forall a b, compareOrdersPlain sortConfig a b = -1 \/
               compareOrdersPlain sortConfig a b = 0 \/
               compareOrdersPlain sortConfig a b = 1) /\
  (forall a, compareOrdersPlain sortConfig a a = 0) /\
  (forall a b, compareOrdersPlain sortConfig a b
               = - compareOrdersPlain sortConfig b a) /\
  (forall a b c, compareOrdersPlain sortConfig a b < 0 ->
                 compareOrdersPlain sortConfig b c < 0 ->
                 compareOrdersPlain sortConfig a c < 0) /\
  (forall a b c, compareOrdersPlain sortConfig a b = 0 ->
                 compareOrdersPlain sortConfig b c = 0 ->
                 compareOrdersPlain sortConfig a c = 0).
Proof.
  destruct sortConfig as [k [d|]].
  2:{ unfold compareOrdersPlain; simpl. repeat split; intros; auto; lia. }
  split; [|split; [|split; [|split]]].
  - intros a b. unfold compareOrdersPlain, js_gt. simpl.
    destruct (js_lt (getProp a k) (getProp b k));
      destruct (js_lt (getProp b k) (getProp a k)); destruct d; auto.
  - intros a. pose proof (compareOrdersPlain_opp (mkSort k (Some d)) a a). lia.
  - apply compareOrdersPlain_opp.
  - intros a b c. rewrite !compareOrdersPlain_neg. destruct d.
    + apply js_lt_trans.
    + intros Hba Hcb. exact (js_lt_trans _ _ _ Hcb Hba).
  - intros a b c. rewrite !compareOrdersPlain_zero.
    intros [Hab Hba] [Hbc Hcb].
    apply (js_tie_trans _ (getProp b k)); auto using getProp_sameKind.
Qed.

Lemma compareOrdersPlain_asym (sortConfig : SortConfig) (a b : DCAOrder) :
  compareOrdersPlain sortConfig a b < 0 ->
  ~ compareOrdersPlain sortConfig b a < 0.
Proof. rewrite (compareOrdersPlain_opp sortConfig a b). lia. Qed.

Lemma compareOrdersPlain_neg_trans (sortConfig : SortConfig) (a b c : DCAOrder) :
  compareOrdersPlain sortConfig a c < 0 ->
  compareOrdersPlain sortConfig a b < 0 \/ compareOrdersPlain sortConfig b c < 0.
Proof.
  destruct sortConfig as [k [d|]].
  2:{ unfold compareOrdersPlain; simpl. lia. }
  rewrite !compareOrdersPlain_neg. destruct d.
  - apply js_lt_neg_trans; apply getProp_sameKind.
  - intros Hca.
    destruct (js_lt_neg_trans _ (getProp b k) _
                (getProp_sameKind c b k) (getProp_sameKind b a k) Hca); auto.
Qed.

(** X4.  In the component whose comparator tests the direction first, the
    sorted rows are a rearrangement of the rows given, and they are in
    order: ascending, no row has a smaller value of the key than a row
    above it; descending, none has a greater one. *)
Theorem sortEnginePlain_orders_rows (k : string) (orders : list DCAOrder) :
  (forall d, Permutation (sortEnginePlain (mkSort k d) orders) orders) /\
  StronglySorted (fun a b => js_lt (getProp b k) (getProp a k) = false)
                 (sortEnginePlain (mkSort k (Some ascend)) orders) /\
  StronglySorted (fun a b => js_lt (getProp a k) (getProp b k) = false)
                 (sortEnginePlain (mkSort k (Some descend)) orders).
Proof.
  split; [intros d; apply Array_sort_perm|]. unfold sortEnginePlain.
  split.
  - eapply StronglySorted_iff;
      [|apply (Array_sort_ordered (compareOrdersPlain (mkSort k (Some ascend))))].
    + intros a b Hn. apply not_true_iff_false. intros F. apply Hn.
      apply (compareOrdersPlain_neg k ascend). exact F.
    + apply compareOrdersPlain_asym.
    + apply compareOrdersPlain_neg_trans.
  - eapply StronglySorted_iff;
      [|apply (Array_sort_ordered (compareOrdersPlain (mkSort k (Some descend))))].
    + intros a b Hn. apply not_true_iff_false. intros F. apply Hn.
      apply (compareOrdersPlain_neg k descend). exact F.
    + apply compareOrdersPlain_asym.
    + apply compareOrdersPlain_neg_trans.
Qed.

(** ** The whole pipeline *)

Lemma filter_filter_comm {A : Type} (f g : A -> bool) (l : list A) :
  filter f (filter g l) = filter g (filter f l).
Proof.
  induction l as [|x l IH]; simpl; [reflexivity|].
  destruct (f x) eqn:Ef, (g x) eqn:Eg; simpl; rewrite ?Ef, ?Eg, IH; reflexivity.
Qed.

(** X1.  The rows of a tab are a rearrangement of what the partition and
    the filter keep, whatever the sort configuration: an order is shown
    exactly when it was fetched, is in the window of the tab and passes the
    filter; there are never more rows than fetched orders; and the
    partition and the filter can be applied in either order. *)
Theorem filteredOrders_shows_exactly_the_kept
        `{Host} (now : Z) (activeTab : Tab) (filters : Filters)
        (sortConfig : SortConfig) (orders : list DCAOrder) :
  Permutation (filteredOrders now activeTab filters sortConfig orders)
              (filterEngine filters (relevantOrders now activeTab orders)) /\
  (forall o, In o (filteredOrders now activeTab filters sortConfig orders) <->
             In o orders /\ inActiveTab now activeTab o = true /\
             keepSpec filters o) /\
  (List.length (filteredOrders now activeTab filters sortConfig orders)
   <= List.length orders)%nat /\
  filterEngine filters (relevantOrders now activeTab orders)
  = relevantOrders now activeTab (filterEngine filters orders).
Proof.
  assert (HP : Permutation
                 (filteredOrders now activeTab filters sortConfig orders)
                 (filterEngine filters (relevantOrders now activeTab orders)))
    by apply sortEngine_perm.
  split; [exact HP|]. split; [|split].
  - intros o. split.
    + intros Hin. apply (Permutation_in _ HP) in Hin.
      apply filterEngine_In in Hin. destruct Hin as [Hin Hk].
      unfold relevantOrders in Hin. apply filter_In in Hin. tauto.
    + intros (Hin & Ht & Hk). apply (Permutation_in _ (Permutation_sym HP)).
      apply filterEngine_In. split; [|exact Hk].
      unfold relevantOrders. apply filter_In. tauto.
  - rewrite (Permutation_length HP).
    apply Subseq_length.
    eapply Subseq_trans; apply Subseq_filter.
  - apply filter_filter_comm.
Qed.

(** ** Sorted rows in the component with the token-pair column *)

Section SortedRows.
Context `{Host}.

Lemma compareOrders_descend_asym (k : string) (a b : DCAOrder) :
  compareOrders (mkSort k (Some descend)) a b < 0 ->
  ~ compareOrders (mkSort k (Some descend)) b a < 0.
Proof.
  rewrite !compareOrders_descend_neg. apply compareOrders_ascend_asym.
Qed.

Lemma compareOrders_ascend_neg_trans (k : string) (a b c : DCAOrder) :
  (k =? "tokenPair")%string = false ->
  compareOrders (mkSort k (Some ascend)) a c < 0 ->
  compareOrders (mkSort k (Some ascend)) a b < 0 \/
  compareOrders (mkSort k (Some ascend)) b c < 0.
Proof.
  intros Hk. rewrite !compareOrders_ascend_neg, Hk.
  apply js_lt_neg_trans; apply getProp_sameKind.
Qed.

End SortedRows.

Lemma sortEngine_ascend_ordered
      `{Host} (k : string) (orders : list DCAOrder) :
  (k =? "tokenPair")%string = false ->
  StronglySorted (fun a b => js_lt (getProp b k) (getProp a k) = false)
                 (sortEngine (mkSort k (Some ascend)) orders).
Proof.
  intros Hk. unfold sortEngine.
  eapply StronglySorted_iff;
    [|apply (Array_sort_ordered (compareOrders (mkSort k (Some ascend))))].
  - intros a b Hn. apply not_true_iff_false. intros F. apply Hn.
    apply compareOrders_ascend_neg. rewrite Hk. exact F.
  - apply compareOrders_ascend_asym.
  - intros a b c. apply compareOrders_ascend_neg_trans. exact Hk.
Qed.

Lemma sortEngine_descend_ordered
      `{Host} (k : string) (orders : list DCAOrder) :
  (k =? "tokenPair")%string = false ->
  StronglySorted (fun a b => js_lt (getProp a k) (getProp b k) = false)
                 (sortEngine (mkSort k (Some descend)) orders).
Proof.
  intros Hk. unfold sortEngine.
  eapply StronglySorted_iff;
    [|apply (Array_sort_ordered (compareOrders (mkSort k (Some descend))))].
  - intros a b Hn. apply not_true_iff_false. intros F. apply Hn.
    apply compareOrders_descend_neg, compareOrders_ascend_neg.
    rewrite Hk. exact F.
  - apply compareOrders_descend_asym.
  - intros a b c. rewrite !compareOrders_descend_neg. intros Hca.
    destruct (compareOrders_ascend_neg_trans k c b a Hk Hca); auto.
Qed.

(** X2.  For every key but the token pair, the rows sorted ascending have
    no row with a smaller value of the key than a row above it, and the
    rows sorted descending none with a greater one, ties or not. *)
Theorem sortEngine_orders_rows
        `{Host} (k : string) (orders : list DCAOrder) :
  (k =? "tokenPair")%string = false ->
  StronglySorted (fun a b => js_lt (getProp b k) (getProp a k) = false)
                 (sortEngine (mkSort k (Some ascend)) orders) /\
  StronglySorted (fun a b => js_lt (getProp a k) (getProp b k) = false)
                 (sortEngine (mkSort k (Some descend)) orders).
Proof.
  intros Hk. split.
  - apply sortEngine_ascend_ordered. exact Hk.
  - apply sortEngine_descend_ordered. exact Hk.
Qed.

Lemma sortEngine_orders_rows_witness :
  let o1 := Scenario.o1 in
  let o2 := Scenario.o2 in
  let o3 := Scenario.o3 in
  ("amount" =? "tokenPair")%string = false /\
  StronglySorted (fun a b => js_lt (getProp b "amount") (getProp a "amount") = false)
                 (sortEngine (mkSort "amount" (Some ascend)) [o1; o2; o3]) /\
  sortEngine (mkSort "amount" (Some ascend)) [o1; o2; o3] = [o2; o1; o3].
Proof.
  split; [reflexivity|]. split; [|reflexivity].
  apply (sortEngine_orders_rows
           "amount" [Scenario.o1; Scenario.o2; Scenario.o3]).
  reflexivity.
Defined.

(** ** The component without tabs *)

Lemma compareOrdersSimple_as_plain (k : string) (d : AscDesc) (a b : DCAOrder) :
  compareOrdersSimple (mkSortState k d) a b =
  if (k =? "executeAt")%string then 0
  else compareOrdersPlain (mkSort k (Some (directionOf d))) a b.
Proof.
  unfold compareOrdersSimple, compareOrdersPlain, getPropSimple, js_gt. simpl.
  destruct (k =? "executeAt")%string; [reflexivity|].
  destruct (js_lt (getProp a k) (getProp b k));
    destruct (js_lt (getProp b k) (getProp a k)); destruct d; reflexivity.
Qed.

Lemma compareOrdersSimple_neg (k : string) (d : AscDesc) (a b : DCAOrder) :
  compareOrdersSimple (mkSortState k d) a b < 0 <->
  match d with
  | asc => js_lt (getPropSimple a k) (getPropSimple b k) = true
  | desc => js_lt (getPropSimple b k) (getPropSimple a k) = true
  end.
Proof.
  rewrite compareOrdersSimple_as_plain. unfold getPropSimple.
  destruct (k =? "executeAt")%string.
  - simpl. destruct d; split; intros E; (lia || discriminate E).
  - rewrite compareOrdersPlain_neg. destruct d; reflexivity.
Qed.

Lemma compareOrdersSimple_asym (c : SortState) (a b : DCAOrder) :
  compareOrdersSimple c a b < 0 -> ~ compareOrdersSimple c b a < 0.
Proof.
  destruct c as [k d]. rewrite !compareOrdersSimple_as_plain.
  destruct (k =? "executeAt")%string; [lia|].
  apply compareOrdersPlain_asym.
Qed.

Lemma compareOrdersSimple_neg_trans (c : SortState) (a b x : DCAOrder) :
  compareOrdersSimple c a x < 0 ->
  compareOrdersSimple c a b < 0 \/ compareOrdersSimple c b x < 0.
Proof.
  destruct c as [k d]. rewrite !compareOrdersSimple_as_plain.
  destruct (k =? "executeAt")%string; [lia|].
  apply compareOrdersPlain_neg_trans.
Qed.

(** X5.  The rows of the component without tabs are the orders that pass
    its text filter, rearranged: each passing order as many times as the
    filter keeps it, and nothing else.  They are in the order the sort state
    asks for: ascending, no row has a smaller value of the key than a row
    above it; descending, none has a greater one. *)
Theorem filteredOrdersSimple_rows
        `{Host} (filters : Filters) (k : string) (orders : list DCAOrder) :
  (forall d, Permutation
               (filteredOrdersSimple filters (mkSortState k d) orders)
               (filterEngineText filters orders)) /\
  (forall d o, In o (filteredOrdersSimple filters (mkSortState k d) orders) <->
               In o orders /\ keepSpecText filters o) /\
  StronglySorted
    (fun a b => js_lt (getPropSimple b k) (getPropSimple a k) = false)
    (filteredOrdersSimple filters (mkSortState k asc) orders) /\
  StronglySorted
    (fun a b => js_lt (getPropSimple a k) (getPropSimple b k) = false)
    (filteredOrdersSimple filters (mkSortState k desc) orders).
Proof.
  unfold filteredOrdersSimple. split; [|split; [|split]].
  - intros d. apply Array_sort_perm.
  - intros d o. rewrite <- filterEngineText_In. split; apply Permutation_in.
    + apply Array_sort_perm.
    + symmetry. apply Array_sort_perm.
  - eapply StronglySorted_iff;
      [|apply (Array_sort_ordered (compareOrdersSimple (mkSortState k asc)))].
    + intros a b Hn. apply not_true_iff_false. intros F. apply Hn.
      apply (compareOrdersSimple_neg k asc). exact F.
    + apply compareOrdersSimple_asym.
    + apply compareOrdersSimple_neg_trans.
  - eapply StronglySorted_iff;
      [|apply (Array_sort_ordered (compareOrdersSimple (mkSortState k desc)))].
    + intros a b Hn. apply not_true_iff_false. intros F. apply Hn.
      apply (compareOrdersSimple_neg k desc). exact F.
    + apply compareOrdersSimple_asym.
    + apply compareOrdersSimple_neg_trans.
Qed.

(** X6.  A click on a column header makes that column the sort key.  From
    another column it sorts ascending; on the current column it flips the
    direction, so three clicks on one header leave the state of one click
    and two clicks never leave the direction of one. *)
Theorem handleSort_toggles (k : string) (prevConfig : SortState) :
  s_key (handleSort k prevConfig) = k /\
  (s_key prevConfig <> k -> s_direction (handleSort k prevConfig) = asc) /\
  (s_key prevConfig = k ->
   s_direction (handleSort k prevConfig) <> s_direction prevConfig) /\
  s_direction (handleSort k (handleSort k prevConfig))
  <> s_direction (handleSort k prevConfig) /\
  handleSort k (handleSort k (handleSort k prevConfig)) = handleSort k prevConfig.
Proof.
  destruct prevConfig as [k0 d0]. unfold handleSort. simpl.
  rewrite String.eqb_refl. simpl.
  split; [reflexivity|]. split; [|split; [|split]].
  - intros Hne. apply String.eqb_neq in Hne. rewrite Hne. reflexivity.
  - intros ->. rewrite String.eqb_refl. destruct d0; simpl; discriminate.
  - destruct ((k0 =? k)%string && match d0 with asc => true | desc => false end);
      simpl; discriminate.
  - destruct ((k0 =? k)%string && match d0 with asc => true | desc => false end);
      reflexivity.
Qed.

(** ** The chart of the component without tabs *)

Lemma beforeFirstT_stops (s : string) :
  s = beforeFirstT s \/
  exists rest, s = (beforeFirstT s ++ String "T" rest)%string.
Proof.
  induction s as [|c s IH]; simpl; [left; reflexivity|].
  destruct (Ascii.eqb_spec c "T") as [->|Hne].
  - right. exists s. reflexivity.
  - destruct IH as [IH|[rest IH]].
    + left. now rewrite <- IH.
    + right. exists rest. simpl. now rewrite <- IH.
Qed.

Lemma beforeFirstT_no_T (s : string) :
  forall n, String.get n (beforeFirstT s) <> Some "T"%char.
Proof.
  induction s as [|c s IH]; simpl; intros n.
  - destruct n; discriminate.
  - destruct (Ascii.eqb_spec c "T") as [->|Hne].
    + destruct n; discriminate.
    + destruct n; simpl; [congruence | apply IH].
Qed.

(** X7.  The chart has one label per value, at most 50 of each, as many
    as there are rows when there are fewer; the label and the value at a
    position come from the row at that position: the value is its amount
    and the label is its creation time cut before the first 'T' (all of it
    when it has none). *)
Theorem chart_is_aligned_and_capped (rows : list DCAOrder) :
  List.length (chartLabels rows) = List.length (chartValues rows) /\
  List.length (chartLabels rows) = Nat.min 50 (List.length rows) /\
  (forall i o, (i < 50)%nat -> nth_error rows i = Some o ->
     nth_error (chartValues rows) i = Some (amount o) /\
     nth_error (chartLabels rows) i = Some (beforeFirstT (createdAt o)) /\
     (forall n, String.get n (beforeFirstT (createdAt o)) <> Some "T"%char) /\
     (createdAt o = beforeFirstT (createdAt o) \/
      exists rest,
        createdAt o = (beforeFirstT (createdAt o) ++ String "T" rest)%string)).
Proof.
  unfold chartLabels, chartValues. rewrite !length_map, length_firstn.
  split; [reflexivity|]. split; [reflexivity|].
  intros i o Hi Hnth.
  assert (Hf : nth_error (firstn 50 rows) i = Some o).
  { rewrite nth_error_firstn. destruct (Nat.ltb_spec i 50); [exact Hnth | lia]. }
  split; [|split; [|split]].
  - rewrite nth_error_map, Hf. reflexivity.
  - rewrite nth_error_map, Hf. reflexivity.
  - apply beforeFirstT_no_T.
  - apply beforeFirstT_stops.
Qed.

Example chart_label_of_iso_time :
  chartLabels [Scenario.o1] = ["2024-03-01"].
Proof. reflexivity. Qed.

(** ** Selector options *)

Lemma existsb_eqb_In (x : string) (l : list string) :
  existsb (String.eqb x) l = true <-> In x l.
Proof.
  rewrite existsb_exists. split.
  - intros [y [Hy E]]. apply String.eqb_eq in E. now subst.
  - intros Hx. exists x. split; [exact Hx | apply String.eqb_refl].
Qed.

Lemma Set_from_fold (l acc : list string) :
  NoDup acc ->
  NoDup (fold_left
           (fun set x => if existsb (String.eqb x) set then set else set ++ [x])
           l acc) /\
  (forall x,
      In x (fold_left
              (fun set x => if existsb (String.eqb x) set then set else set ++ [x])
              l acc) <-> In x acc \/ In x l).
Proof.
  revert acc. induction l as [|y l IH]; intros acc Hnd; simpl.
  - split; [exact Hnd | intros x; tauto].
  - destruct (existsb (String.eqb y) acc) eqn:E.
    + apply existsb_eqb_In in E. destruct (IH acc Hnd) as [IH1 IH2].
      split; [exact IH1|]. intros x. rewrite IH2.
      split; [tauto|]. intros [Hx|[->|Hx]]; auto.
    + assert (Hy : ~ In y acc).
      { intros F. apply existsb_eqb_In in F. congruence. }
      assert (Hnd' : NoDup (acc ++ [y])).
      { apply NoDup_app; [exact Hnd | repeat constructor; auto |].
        intros x Hx [->|[]]. exact (Hy Hx). }
      destruct (IH (acc ++ [y]) Hnd') as [IH1 IH2].
      split; [exact IH1|]. intros x. rewrite IH2, in_app_iff. simpl. tauto.
Qed.

Lemma Set_from_NoDup (l : list string) : NoDup (Set_from l).
Proof. apply (Set_from_fold l []). constructor. Qed.

Lemma Set_from_In (l : list string) (x : string) : In x (Set_from l) <-> In x l.
Proof.
  unfold Set_from. rewrite (proj2 (Set_from_fold l [] (NoDup_nil _))).
  simpl. tauto.
Qed.

Lemma defaultCompare_neg (x y : string) :
  defaultCompare x y < 0 <-> String.ltb x y = true.
Proof.
  unfold defaultCompare. destruct (String.ltb x y); [split; [reflexivity|lia]|].
  destruct (String.ltb y x); split; intros E; (lia || discriminate E).
Qed.

Lemma String_ltb_total (x y : string) :
  x <> y -> String.ltb x y = true \/ String.ltb y x = true.
Proof.
  intros Hne. rewrite !String_ltb_Lt, (String.compare_antisym y x).
  destruct (String.compare x y) eqn:E; simpl; auto.
  apply String.compare_eq_iff in E. contradiction.
Qed.

Lemma NoDup_strictly_ordered (l : list string) :
  NoDup l ->
  ForallOrdPairs (fun a b => defaultCompare a b < 0 \/ defaultCompare b a < 0) l.
Proof.
  induction 1 as [|x l Hx Hnd IH]; constructor; [|exact IH].
  apply Forall_forall. intros y Hy. rewrite !defaultCompare_neg.
  apply String_ltb_total. intros ->. exact (Hx Hy).
Qed.

Lemma sorted_Set_from (l : list string) :
  NoDup (Array_sort defaultCompare (Set_from l)) /\
  (forall x, In x (Array_sort defaultCompare (Set_from l)) <-> In x l) /\
  StronglySorted (fun a b => String.ltb a b = true)
                 (Array_sort defaultCompare (Set_from l)).
Proof.
  split; [|split].
  - apply (Permutation_NoDup (l := Set_from l));
      [symmetry; apply Array_sort_perm | apply Set_from_NoDup].
  - intros x. rewrite <- (Set_from_In l x). split; apply Permutation_in.
    + apply Array_sort_perm.
    + symmetry. apply Array_sort_perm.
  - eapply StronglySorted_iff; [|apply Array_sort_sorted].
    + intros a b. apply defaultCompare_neg.
    + intros x y z. rewrite !defaultCompare_neg, !String_ltb_Lt.
      apply String_compare_Lt_trans.
    + apply NoDup_strictly_ordered, Set_from_NoDup.
Qed.

Lemma sorted_Set_from_perm (l l' : list string) :
  (forall x, In x l <-> In x l') ->
  Array_sort defaultCompare (Set_from l) = Array_sort defaultCompare (Set_from l').
Proof.
  intros Hsame.
  destruct (sorted_Set_from l) as (N1 & I1 & S1).
  destruct (sorted_Set_from l') as (N2 & I2 & S2).
  apply (StronglySorted_unique (fun a b => String.ltb a b = true));
    try assumption.
  - intros x y Hxy Hyx. rewrite String_ltb_Lt in Hxy, Hyx.
    rewrite String.compare_antisym, Hyx in Hxy. discriminate Hxy.
  - apply NoDup_Permutation; try assumption.
    intros x. rewrite I1, I2. apply Hsame.
Qed.

(** X8.  The options of each mint selector list every mint that occurs
    in the orders, and nothing else, once each, in strictly ascending order
    of code units. *)
Theorem unique_mints_are_the_distinct_mints_sorted (orders : list DCAOrder) :
  (NoDup (uniqueInputMints orders) /\
   (forall m, In m (uniqueInputMints orders) <->
              exists o, In o orders /\ inputMint o = m) /\
   StronglySorted (fun a b => String.ltb a b = true) (uniqueInputMints orders)) /\
  (NoDup (uniqueOutputMints orders) /\
   (forall m, In m (uniqueOutputMints orders) <->
              exists o, In o orders /\ outputMint o = m) /\
   StronglySorted (fun a b => String.ltb a b = true) (uniqueOutputMints orders)).
Proof.
  unfold uniqueInputMints, uniqueOutputMints. split.
  - destruct (sorted_Set_from (map (fun o => inputMint o) orders))
      as (N & I & S).
    split; [exact N|]. split; [|exact S].
    intros m. rewrite I, in_map_iff. split; intros [o [A B]]; exists o; tauto.
  - destruct (sorted_Set_from (map (fun o => outputMint o) orders))
      as (N & I & S).
    split; [exact N|]. split; [|exact S].
    intros m. rewrite I, in_map_iff. split; intros [o [A B]]; exists o; tauto.
Qed.

(** X9.  The options do not depend on the order in which the orders
    were fetched: two fetches with the same orders in another order give
    the same two option lists. *)
Theorem unique_mints_ignore_fetch_order (orders orders' : list DCAOrder) :
  Permutation orders orders' ->
  uniqueInputMints orders = uniqueInputMints orders' /\
  uniqueOutputMints orders = uniqueOutputMints orders'.
Proof.
  intros HP. unfold uniqueInputMints, uniqueOutputMints.
  split; apply sorted_Set_from_perm; intros x; rewrite !in_map_iff;
    split; intros [o [E Hin]]; exists o; split; try exact E;
    first [ exact (Permutation_in _ HP Hin)
          | exact (Permutation_in _ (Permutation_sym HP) Hin) ].
Qed.

Lemma unique_mints_ignore_fetch_order_witness :
  let o1 := Scenario.o1 in
  let o2 := Scenario.o2 in
  let o3 := Scenario.o3 in
  Permutation [o1; o2; o3] [o3; o1; o2] /\
  uniqueInputMints [o1; o2; o3] = ["SOL"; "USDC"] /\
  uniqueInputMints [o3; o1; o2] = ["SOL"; "USDC"] /\
  uniqueOutputMints [o1; o2; o3] = uniqueOutputMints [o3; o1; o2].
Proof.
  assert (HP : Permutation [Scenario.o1; Scenario.o2; Scenario.o3]
                           [Scenario.o3; Scenario.o1; Scenario.o2]).
  { apply Permutation_sym.
    apply (Permutation_cons_app [Scenario.o1; Scenario.o2] []).
    apply Permutation_refl. }
  split; [exact HP|]. split; [reflexivity|]. split; [reflexivity|].
  apply (unique_mints_ignore_fetch_order _ _ HP).
Defined.

(** ** Empty criteria and chosen options *)

Section EmptyCriteria.
Context `{Host}.

(** The lowering of the empty text is the empty text. *)
Hypothesis toLowerCase_empty : toLowerCase "" = "".

Lemma matchesFilters_mints_only (im om : string) (o : DCAOrder) :
  matchesFilters (mkFilters "" im om "") o =
  ((im =? "")%string || (inputMint o =? im)%string) &&
  ((om =? "")%string || (outputMint o =? om)%string).
Proof.
  unfold matchesFilters. simpl.
  rewrite toLowerCase_empty, !includes_empty. simpl.
  rewrite andb_true_r. reflexivity.
Qed.

Lemma filter_all {A : Type} (f : A -> bool) (l : list A) :
  (forall x, In x l -> f x = true) -> filter f l = l.
Proof.
  induction l as [|x l IH]; simpl; intros Hf; [reflexivity|].
  rewrite (Hf x) by auto. f_equal. apply IH. auto.
Qed.

Lemma filterEngine_noFilters (orders : list DCAOrder) :
  filterEngine noFilters orders = orders.
Proof.
  apply filter_all. intros o _. unfold noFilters.
  rewrite matchesFilters_mints_only. reflexivity.
Qed.

Lemma filterEngineText_noFilters (orders : list DCAOrder) :
  filterEngineText noFilters orders = orders.
Proof.
  apply filter_all. intros o _. unfold matchesFiltersText, noFilters. simpl.
  rewrite toLowerCase_empty, !includes_empty. reflexivity.
Qed.

Lemma filterEngine_chosen_input_mint (m : string) (orders : list DCAOrder) :
  In m (uniqueInputMints orders) ->
  (exists o, In o (filterEngine (mkFilters "" m "" "") orders) /\
             inputMint o = m) /\
  (m <> "" ->
   forall o, In o (filterEngine (mkFilters "" m "" "") orders) ->
             inputMint o = m).
Proof.
  intros Hm. split.
  - unfold uniqueInputMints in Hm.
    destruct (sorted_Set_from (map (fun order => inputMint order) orders))
      as (_ & I & _).
    apply I in Hm. apply in_map_iff in Hm. destruct Hm as [o [E Hin]].
    exists o. split; [|exact E]. unfold filterEngine. apply filter_In.
    split; [exact Hin|]. rewrite matchesFilters_mints_only.
    rewrite E, String.eqb_refl, orb_true_r. reflexivity.
  - intros Hne o Hin. unfold filterEngine in Hin. apply filter_In in Hin.
    destruct Hin as [_ Hk]. rewrite matchesFilters_mints_only in Hk.
    apply String.eqb_neq in Hne. rewrite Hne in Hk. simpl in Hk.
    apply andb_true_iff in Hk. destruct Hk as [Hk _].
    apply String.eqb_eq in Hk. exact Hk.
Qed.

End EmptyCriteria.

(** X10.  With the criteria the component starts with (every field
    empty) the filter keeps every order, in both components; in the tab
    "All" the table then holds all fetched orders, rearranged by the
    sort. *)
Theorem initial_criteria_keep_everything
        `{Host} (now : Z) (sortConfig : SortConfig) (orders : list DCAOrder) :
  toLowerCase "" = "" ->
  filterEngine noFilters orders = orders /\
  filterEngineText noFilters orders = orders /\
  Permutation (filteredOrders now AllTab noFilters sortConfig orders) orders.
Proof.
  intros Hlow. split; [|split].
  - apply filterEngine_noFilters. exact Hlow.
  - apply filterEngineText_noFilters. exact Hlow.
  - unfold filteredOrders. rewrite sortEngine_perm.
    rewrite relevantOrders_AllTab, (filterEngine_noFilters Hlow). reflexivity.
Qed.

Lemma initial_criteria_keep_everything_witness :
  toLowerCase "" = "" /\
  filterEngine noFilters [Scenario.o1; Scenario.o2; Scenario.o3]
  = [Scenario.o1; Scenario.o2; Scenario.o3].
Proof.
  split; [reflexivity|].
  apply (initial_criteria_keep_everything
           Scenario.now (mkSort "amount" (Some descend))
           [Scenario.o1; Scenario.o2; Scenario.o3]).
  reflexivity.
Defined.

(** X11.  An option of the input-mint selector that came from the orders
    never empties the table: with that option chosen and the rest of the
    criteria empty, the filter keeps at least one order of that mint, and,
    unless the option is the empty text, only orders of that mint. *)
Theorem chosen_input_mint_keeps_its_orders
        `{Host} (m : string) (orders : list DCAOrder) :
  toLowerCase "" = "" ->
  In m (uniqueInputMints orders) ->
  (exists o, In o (filterEngine (mkFilters "" m "" "") orders) /\
             inputMint o = m) /\
  (m <> "" ->
   forall o, In o (filterEngine (mkFilters "" m "" "") orders) ->
             inputMint o = m).
Proof.
  intros Hlow Hm. apply filterEngine_chosen_input_mint; assumption.
Qed.

Lemma chosen_input_mint_keeps_its_orders_witness :
  toLowerCase "" = "" /\
  In "USDC" (uniqueInputMints [Scenario.o1; Scenario.o2; Scenario.o3]) /\
  (exists o, In o (filterEngine (mkFilters "" "USDC" "" "")
                                [Scenario.o1; Scenario.o2; Scenario.o3]) /\
             inputMint o = "USDC").
Proof.
  assert (Hm : In "USDC" (uniqueInputMints
                            [Scenario.o1; Scenario.o2; Scenario.o3]))
    by (vm_compute; auto).
  split; [reflexivity|]. split; [exact Hm|].
  refine (proj1 (chosen_input_mint_keeps_its_orders
                   "USDC" [Scenario.o1; Scenario.o2; Scenario.o3] _ Hm)).
  reflexivity.
Defined.

(** ** Table events *)

(** X12.  Whatever the table reports, the sort configuration that
    [handleTableChange] installs has a direction.  When the table reports
    a cleared sort, the configuration is "amount, descending", and the rows
    are then in non-increasing order of amount. *)
Theorem handleTableChange_never_unsorts
        `{Host} (sorter : Sorter) (orders : list DCAOrder) :
  direction (handleTableChange sorter) <> None /\
  (sorterOrder sorter = None ->
   handleTableChange sorter = mkSort "amount" (Some descend) /\
   StronglySorted (fun a b => (amount b <= amount a)%Q)
                  (sortEngine (handleTableChange sorter) orders)).
Proof.
  unfold handleTableChange. destruct (sorterOrder sorter) as [d|].
  - split; [discriminate | intros E; discriminate E].
  - split; [discriminate|]. intros _. split; [reflexivity|].
    eapply StronglySorted_iff;
      [|apply (sortEngine_descend_ordered "amount" orders); reflexivity].
    intros a b. simpl. unfold Qltb. rewrite negb_false_iff.
    apply Qle_bool_iff.
Qed.

(** ** What the chart leaves out *)

Section ChartEdges.
Context `{Host} {zone : TimeZone}.

Lemma hourValue_none (now : Z) (index : nat) (orders : list DCAOrder) :
  SteadyOffset (past24Hours now) now ->
  (index < 24)%nat ->
  (forall o, In o orders -> inTrailingDay now o = false) ->
  hourValue now index orders = 0%Q.
Proof.
  intros Hs Hi Hout. unfold hourValue. rewrite filter_none; [reflexivity|].
  intros o Hin. destruct (inHour now index o) eqn:E; [|reflexivity].
  assert (F : inTrailingDay now o = true).
  { apply (inTrailingDay_bucket now o Hs). exists index. split; [exact Hi|].
    apply inHour_spec. exact E. }
  rewrite (Hout o Hin) in F. discriminate F.
Qed.

Lemma map_const_repeat {A B : Type} (f : A -> B) (c : B) (l : list A) :
  (forall x, In x l -> f x = c) -> map f l = repeat c (List.length l).
Proof.
  induction l as [|x l IH]; simpl; intros Hf; [reflexivity|].
  rewrite (Hf x) by auto. f_equal. apply IH. auto.
Qed.

Lemma fold_sum_nonneg (l : list DCAOrder) (init : Q) :
  (0 <= init)%Q ->
  Forall (fun o => (0 <= amount o)%Q) l ->
  (0 <= fold_left (fun sum order => number_add sum (amount order)) l init)%Q.
Proof.
  revert init. induction l as [|o l IH]; intros init Hi Hl; simpl; [exact Hi|].
  inversion Hl; subst. apply IH; [|assumption].
  apply roundToDouble_nonneg. lra.
Qed.

End ChartEdges.

(** X13.  Where the offset of local time does not change inside the
    trailing day, orders outside that day leave no trace in the chart: when
    every order either is not a USDC order, has no valid execution time, is
    due at [now] or later, or was executed more than 24 hours before [now],
    all 24 values are zero. *)
Theorem chart_ignores_orders_outside_trailing_day
        `{Host} {zone : TimeZone} (now : Z) (orders : list DCAOrder) :
  SteadyOffset (past24Hours now) now ->
  (forall o, In o orders ->
             inputMint o <> "USDC" \/
             Date_parse (executeAt o) = None \/
             (exists t, Date_parse (executeAt o) = Some t /\
                        (now <= t \/ t < now - 24 * 60 * 60 * 1000))) ->
  snd (fetchAggregateUSDCValue now orders) = repeat 0%Q 24.
Proof.
  intros Hs Hout. unfold fetchAggregateUSDCValue. cbn [snd]. unfold data.
  rewrite labels_length.
  rewrite (map_const_repeat (fun index => hourValue now index orders) 0%Q);
    [rewrite length_seq; reflexivity|].
  intros index Hin. apply in_seq in Hin. apply hourValue_none; [exact Hs|lia|].
  intros o Ho. unfold inTrailingDay, past24Hours.
  destruct (Hout o Ho) as [Hm|[Hd|[t [Hd Ht]]]].
  - apply String.eqb_neq in Hm. rewrite Hm. reflexivity.
  - rewrite Hd. apply andb_false_r.
  - rewrite Hd. apply andb_false_iff. right. apply andb_false_iff.
    destruct Ht as [Ht|Ht]; [right; apply Z.ltb_ge | left; apply Z.leb_gt]; lia.
Qed.

Lemma chart_ignores_orders_outside_trailing_day_witness :
  SteadyOffset (zone := newYork2024)
               (past24Hours Scenario.now) Scenario.now /\
  (forall o, In o [Scenario.o1; Scenario.o2] ->
             inputMint o <> "USDC" \/
             Date_parse (executeAt o) = None \/
             (exists t, Date_parse (executeAt o) = Some t /\
                        (Scenario.now <= t \/
                         t < Scenario.now - 24 * 60 * 60 * 1000))) /\
  snd (fetchAggregateUSDCValue (zone := newYork2024)
                               Scenario.now [Scenario.o1; Scenario.o2])
  = repeat 0%Q 24.
Proof.
  assert (Hs : SteadyOffset (zone := newYork2024)
                            (past24Hours Scenario.now) Scenario.now).
  { apply newYork2024_steady_in_winter. vm_compute. discriminate. }
  assert (Hout : forall o, In o [Scenario.o1; Scenario.o2] ->
             inputMint o <> "USDC" \/
             Date_parse (executeAt o) = None \/
             (exists t, Date_parse (executeAt o) = Some t /\
                        (Scenario.now <= t \/
                         t < Scenario.now - 24 * 60 * 60 * 1000))).
  { intros o [<-|[<-|[]]].
    - left. discriminate.
    - right. right. exists 1709303415250. split; [reflexivity|].
      left. vm_compute. discriminate. }
  split; [exact Hs|]. split; [exact Hout|].
  apply (chart_ignores_orders_outside_trailing_day
           (zone := newYork2024)
           Scenario.now [Scenario.o1; Scenario.o2] Hs Hout).
Defined.

(** On the day the clocks go back the last bucket starts at [now]: in New
    York at 2024-11-03T12:00Z a USDC order due half an hour later is in the
    chart. *)
Example chart_on_a_fall_back_day :
  let now := 1730635200000 in
  let a := mkOrder "order-0" "u1" "USDC" "BTC" 7 "daily"
                   "2024-11-02T12:00:00.000Z" "2024-11-03T12:30:00.000Z" in
  hourStart (zone := newYork2024) now 23 = now /\
  hourEnd (zone := newYork2024) now 23 = now + 3600000 /\
  inTrailingDay now a = false /\
  nth 23 (snd (fetchAggregateUSDCValue (zone := newYork2024) now [a])) 0%Q
  = 7%Q.
Proof. vm_compute. repeat split. Qed.

(** X14.  When no amount is negative, no value of the chart is
    negative. *)
Theorem chart_values_are_nonnegative
        `{Host} {zone : TimeZone} (now : Z) (orders : list DCAOrder) :
  Forall (fun o => (0 <= amount o)%Q) orders ->
  Forall (fun v => (0 <= v)%Q) (snd (fetchAggregateUSDCValue now orders)).
Proof.
  intros Hpos. unfold fetchAggregateUSDCValue. cbn [snd]. unfold data.
  apply Forall_map, Forall_forall. intros index _. unfold hourValue.
  apply fold_sum_nonneg; [lra|].
  apply Forall_forall. intros o Hin. apply filter_In in Hin.
  rewrite Forall_forall in Hpos. apply Hpos. tauto.
Qed.

Lemma chart_values_are_nonnegative_witness :
  Forall (fun o => (0 <= amount o)%Q) [Scenario.o1; Scenario.o2] /\
  Forall (fun v => (0 <= v)%Q)
         (snd (fetchAggregateUSDCValue (zone := utcZone)
                                       (Scenario.now + 3 * 3600000)
                                       [Scenario.o1; Scenario.o2])).
Proof.
  assert (Hpos : Forall (fun o => (0 <= amount o)%Q)
                        [Scenario.o1; Scenario.o2]).
  { repeat constructor; vm_compute; discriminate. }
  split; [exact Hpos|].
  apply (chart_values_are_nonnegative
           (zone := utcZone)
           (Scenario.now + 3 * 3600000) [Scenario.o1; Scenario.o2] Hpos).
Defined.

(** ** The simulated fetch *)

Example Date_toISOString_ex :
  Date_toISOString 1709296215250 = "2024-03-01T12:30:15.250Z".
Proof. vm_compute. reflexivity. Qed.

Example Date_toISOString_leap_day :
  Date_toISOString 1709164800000 = "2024-02-29T00:00:00.000Z".
Proof. vm_compute. reflexivity. Qed.

Lemma Qfloor_scaled_range (r : Q) (n : Z) :
  (0 <= r)%Q -> (r < 1)%Q -> 0 < n -> 0 <= Qfloor (r * inject_Z n) < n.
Proof.
  intros H0 H1 Hn.
  assert (Hq : (inject_Z 0 < inject_Z n)%Q) by (rewrite <- Zlt_Qlt; exact Hn).
  change (inject_Z 0) with 0%Q in Hq.
  split.
  - change 0 with (Qfloor 0). apply Qfloor_resp_le. nra.
  - rewrite Zlt_Qlt. apply Qle_lt_trans with (r * inject_Z n)%Q;
      [apply Qfloor_le | nra].
Qed.

Lemma pick_In (choices : list string) (r : Q) :
  (0 <= r)%Q -> (r < 1)%Q -> choices <> [] -> In (pick choices r) choices.
Proof.
  intros H0 H1 Hne. unfold pick. apply nth_In.
  assert (Hlen : 0 < Z.of_nat (List.length choices))
    by (destruct choices; [contradiction | simpl; lia]).
  pose proof (Qfloor_scaled_range r _ H0 H1 Hlen). lia.
Qed.

Lemma toFixed2_range (r : Q) :
  (0 <= r)%Q -> (r < 1)%Q ->
  (0 <= toFixed2 (r * 10000))%Q /\ (toFixed2 (r * 10000) <= 10000)%Q.
Proof.
  intros H0 H1. unfold toFixed2.
  assert (Hx : (0 <= r * 10000)%Q) by lra.
  apply Qle_bool_iff in Hx. rewrite Hx. apply Qle_bool_iff in Hx.
  rewrite Qabs_pos by exact Hx.
  set (n := Qfloor (r * 10000 * 100 + (1 # 2))).
  assert (Hlo : 0 <= n).
  { change 0 with (Qfloor 0). apply Qfloor_resp_le. lra. }
  assert (Hhi : n <= 1000000).
  { change 1000000 with (Qfloor (1000000 + (1 # 2))).
    apply Qfloor_resp_le. lra. }
  unfold Qle. simpl. lia.
Qed.

Lemma numberToString_inj (x y : Z) :
  numberToString x = numberToString y -> x = y.
Proof.
  unfold numberToString. intros E.
  assert (E' : Some (Z.to_int x) = Some (Z.to_int y)).
  { rewrite <- !NilEmpty.isi. now rewrite E. }
  injection E' as E'. rewrite <- (DecimalZ.of_to x), <- (DecimalZ.of_to y).
  now rewrite E'.
Qed.

Lemma NoDup_map_on {A B : Type} (f : A -> B) (l : list A) :
  (forall x y, In x l -> In y l -> f x = f y -> x = y) ->
  NoDup l -> NoDup (map f l).
Proof.
  intros Hinj Hnd. induction Hnd as [|x l Hx Hnd IH]; simpl; constructor.
  - intros Hin. apply in_map_iff in Hin. destruct Hin as [y [E Hy]].
    assert (y = x) by (apply Hinj; simpl; auto). subst. contradiction.
  - apply IH. intros a b Ha Hb. apply Hinj; simpl; auto.
Qed.

Lemma fetchDCAOrders_nth {zone : TimeZone}
      (random : nat -> Q) (toISOString : Z -> string)
      (filters : Filters) (now : Z) (index : nat) (o : DCAOrder) :
  nth_error (fetchDCAOrders random toISOString filters now) index = Some o <->
  (index < 100)%nat /\ o = mockOrder random toISOString now index.
Proof.
  unfold fetchDCAOrders. rewrite nth_error_map. split.
  - intros E. destruct (nth_error (seq 0 100) index) as [j|] eqn:Ej;
      [|discriminate E].
    assert (Hlt : (index < List.length (seq 0 100))%nat)
      by (apply nth_error_Some; rewrite Ej; discriminate).
    rewrite length_seq in Hlt.
    assert (j = index).
    { apply nth_error_nth with (d := O) in Ej. rewrite seq_nth in Ej by lia.
      lia. }
    subst j. simpl in E. injection E as <-. split; [exact Hlt | reflexivity].
  - intros [Hlt ->].
    assert (Ej : nth_error (seq 0 100) index = Some index).
    { rewrite (nth_error_nth' _ O) by (rewrite length_seq; exact Hlt).
      rewrite seq_nth by exact Hlt. reflexivity. }
    rewrite Ej. reflexivity.
Qed.

(** X15.  Whatever is drawn, the simulated fetch returns 100 orders whose
    ids are pairwise different.  When every draw is in [0, 1), each order
    has an input mint among SOL, USDC and ETH, an output mint among BTC,
    USDT and RAY, a frequency among daily, weekly and monthly, and an
    amount between 0 and 10000. *)
Theorem fetchDCAOrders_is_well_formed
        {zone : TimeZone} (random : nat -> Q) (toISOString : Z -> string)
        (filters : Filters) (now : Z) :
  List.length (fetchDCAOrders random toISOString filters now) = 100%nat /\
  NoDup (map (fun o => id o) (fetchDCAOrders random toISOString filters now)) /\
  ((forall n, (0 <= random n)%Q /\ (random n < 1)%Q) ->
   Forall (fun o => In (inputMint o) ["SOL"; "USDC"; "ETH"] /\
                    In (outputMint o) ["BTC"; "USDT"; "RAY"] /\
                    In (frequency o) ["daily"; "weekly"; "monthly"] /\
                    (0 <= amount o)%Q /\ (amount o <= 10000)%Q)
          (fetchDCAOrders random toISOString filters now)).
Proof.
  unfold fetchDCAOrders. split; [|split].
  - rewrite length_map, length_seq. reflexivity.
  - rewrite map_map. apply NoDup_map_on; [|apply seq_NoDup].
    intros i j _ _ E. simpl in E. injection E as E.
    apply numberToString_inj in E. lia.
  - intros Hr. apply Forall_map, Forall_forall. intros index _.
    unfold mockOrder. cbn [inputMint outputMint frequency amount].
    split; [|split; [|split]];
      try (apply pick_In; [apply Hr | apply Hr | discriminate]).
    apply toFixed2_range; apply Hr.
Qed.

Example fetchDCAOrders_first_order :
  nth_error (fetchDCAOrders (zone := utcZone) (fun _ => (1 # 2)%Q)
                            Date_toISOString noFilters Scenario.now) 0
  = Some (mkOrder "order-0" "user-50" "USDC" "USDT" (500000 # 100)%Q "weekly"
                  "2024-03-01T13:30:15.250Z" "2024-03-01T14:00:15.250Z").
Proof. vm_compute. reflexivity. Qed.

Lemma executeInstant_steady {zone : TimeZone}
      (random : nat -> Q) (now : Z) (index : nat) :
  SteadyOffset now (now + 49 * 3600000) ->
  0 <= minuteOffset random index < 60 ->
  executeInstant random now index
  = now + (if (index mod 3 =? 0)%nat then 1
           else if (index mod 3 =? 1)%nat then 24 else 48) * 3600000
    + minuteOffset random index * 60000.
Proof.
  intros Hs Hm. unfold executeInstant, orderInstant.
  set (k := if (index mod 3 =? 0)%nat then 1
            else if (index mod 3 =? 1)%nat then 24 else 48).
  assert (Hk : 1 <= k <= 48)
    by (unfold k; destruct (index mod 3 =? 0)%nat;
        [|destruct (index mod 3 =? 1)%nat]; lia).
  assert (E : (if (index mod 3 =? 0)%nat then addHours now 1
               else if (index mod 3 =? 1)%nat then addHours now 24
                    else addHours now 48) = addHours now k)
    by (unfold k; destruct (index mod 3 =? 0)%nat;
        [|destruct (index mod 3 =? 1)%nat]; reflexivity).
  rewrite E.
  rewrite (addHours_steady now (now + 49 * 3600000) now k Hs) by lia.
  apply (addMinutes_steady now (now + 49 * 3600000)); [exact Hs | lia | lia].
Qed.

(** X16.  Where the offset of local time does not change in the 49 hours
    after the fetch, the minute offset [m] drawn for an order is one of 0 to
    59, the fetched orders are shown at the instant [v], and the parser
    reads the execution time of the order back as written: an order of the
    first group (index divisible by 3) is in the tab "Next Hour" exactly
    while [now + m min <= v < now + 1 h + m min], so at the instant of the
    fetch only if [m] is 0; an order of the second group is in the tab
    "Next Day" exactly while [now + m min <= v < now + 24 h + m min]; an
    order of the third group is in neither tab before [now + 24 h]. *)
Theorem fetched_orders_in_tabs
        `{Host} {zone : TimeZone}
        (random : nat -> Q) (toISOString : Z -> string)
        (filters : Filters) (now v : Z) (index : nat) (o : DCAOrder) :
  SteadyOffset now (now + 49 * 3600000) ->
  0 <= minuteOffset random index < 60 ->
  nth_error (fetchDCAOrders random toISOString filters now) index = Some o ->
  Date_parse (executeAt o) = Some (executeInstant random now index) ->
  ((index mod 3 = 0)%nat ->
   (inActiveTab v NextHour o = true <->
    now + minuteOffset random index * 60000 <= v
    < now + 3600000 + minuteOffset random index * 60000) /\
   (inActiveTab now NextHour o = true <-> minuteOffset random index = 0)) /\
  ((index mod 3 = 1)%nat ->
   (inActiveTab v NextDay o = true <->
    now + minuteOffset random index * 60000 <= v
    < now + 86400000 + minuteOffset random index * 60000)) /\
  ((index mod 3 = 2)%nat ->
   v < now + 86400000 ->
   inActiveTab v NextHour o = false /\ inActiveTab v NextDay o = false).
Proof.
  intros Hs Hm Hnth Hparse. apply fetchDCAOrders_nth in Hnth.
  destruct Hnth as [_ ->].
  assert (Htab : forall v' tab,
             inActiveTab v' tab (mockOrder random toISOString now index) =
             match tab with
             | NextHour =>
                 (v' <? executeInstant random now index) &&
                 (executeInstant random now index <=? v' + 60 * 60 * 1000)
             | NextDay =>
                 (v' <? executeInstant random now index) &&
                 (executeInstant random now index <=? v' + 24 * 60 * 60 * 1000)
             | AllTab => true
             end).
  { intros v' tab. unfold inActiveTab. rewrite Hparse.
    destruct tab; reflexivity. }
  rewrite (executeInstant_steady random now index Hs Hm) in Htab.
  split; [|split].
  - intros Hmod. rewrite !Htab, Hmod. cbn [Nat.eqb].
    rewrite !andb_true_iff, !Z.ltb_lt, !Z.leb_le. split; [lia|].
    split; [lia|]. intros ->. lia.
  - intros Hmod. rewrite !Htab, Hmod. cbn [Nat.eqb].
    rewrite !andb_true_iff, !Z.ltb_lt, !Z.leb_le. lia.
  - intros Hmod Hv. rewrite !Htab, Hmod. cbn [Nat.eqb].
    split; apply andb_false_iff; right; apply Z.leb_gt; lia.
Qed.

(** The draw is the double nearest to 0.15: its product with 60 rounds to
    9, and the offset is 9 minutes, where the product of the exact values
    is below 9. *)
Example minuteOffset_rounds_before_floor :
  minuteOffset (fun _ => roundToDouble (15 # 100)) 0 = 9 /\
  Qfloor (roundToDouble (15 # 100) * 60) = 8.
Proof. vm_compute. split; reflexivity. Qed.

Lemma fetched_orders_in_tabs_witness :
  let random := fun _ : nat => roundToDouble (15 # 100) in
  let now := Scenario.now in
  let o := mockOrder (zone := newYork2024) random Date_toISOString now 0 in
  SteadyOffset (zone := newYork2024) now (now + 49 * 3600000) /\
  0 <= minuteOffset random 0 < 60 /\
  nth_error (fetchDCAOrders (zone := newYork2024)
                            random Date_toISOString noFilters now) 0
  = Some o /\
  Date_parse (executeAt o)
  = Some (executeInstant (zone := newYork2024) random now 0) /\
  minuteOffset random 0 = 9 /\
  inActiveTab now NextHour o = false /\
  inActiveTab (now + 9 * 60000) NextHour o = true.
Proof.
  intros random now o. subst random now o.
  assert (Hs : SteadyOffset (zone := newYork2024)
                            Scenario.now (Scenario.now + 49 * 3600000)).
  { apply newYork2024_steady_in_winter. vm_compute. discriminate. }
  assert (Hm : 0 <= minuteOffset (fun _ : nat => roundToDouble (15 # 100)) 0
               < 60)
    by (vm_compute; split; [discriminate | reflexivity]).
  assert (Hnth : nth_error (fetchDCAOrders
                              (zone := newYork2024)
                              (fun _ : nat => roundToDouble (15 # 100))
                              Date_toISOString noFilters Scenario.now) 0
                 = Some (mockOrder (zone := newYork2024)
                                   (fun _ : nat => roundToDouble (15 # 100))
                                   Date_toISOString Scenario.now 0))
    by (vm_compute; reflexivity).
  assert (Hparse : Date_parse
                     (executeAt (mockOrder
                                   (zone := newYork2024)
                                   (fun _ : nat => roundToDouble (15 # 100))
                                   Date_toISOString Scenario.now 0))
                   = Some (executeInstant
                             (zone := newYork2024)
                             (fun _ : nat => roundToDouble (15 # 100))
                             Scenario.now 0))
    by (vm_compute; reflexivity).
  split; [exact Hs|]. split; [exact Hm|].
  split; [exact Hnth|]. split; [exact Hparse|].
  split; [vm_compute; reflexivity|].
  split; [vm_compute; reflexivity|].
  destruct (fetched_orders_in_tabs
              (zone := newYork2024)
              (fun _ : nat => roundToDouble (15 # 100))
              Date_toISOString noFilters
              Scenario.now (Scenario.now + 9 * 60000) 0 _ Hs Hm Hnth Hparse)
    as [Hfirst _].
  destruct (Hfirst eq_refl) as [Hiff _].
  apply Hiff. vm_compute. split; [discriminate | reflexivity].
Defined.
